(** * invenio-i18n: translation conversion, validation, layered merge and
      distribution

    A shallow embedding of the Python functions of [invenio_i18n] that the
    specification talks about:

    - [translation_utilities/discovery.py]: [package_name_to_module_name];
    - [translation_utilities/convert.py]: [po_to_i18next_json];
    - [translation_utilities/validate.py]: [validate_po];
    - [utils.py]: [map_to_i18next_style], [calculate_target_packages],
      [distribute_js_translations_from_directory],
      [collect_js_package_translations], [_add_package_locale_translations],
      [merge_js_translations], [merge_bundle_js_layers],
      [merge_instance_js_layers].

    Modelling conventions.

    - A Python [str] is a [string]: a sequence of characters, each character a
      code point below 256.
    - A Python [dict] that is looked up and updated is a [gmap]; iterating
      over [d.items()] is a left fold over [map_to_list d].  Python iterates in
      insertion order, [map_to_list] in the order of the map's own
      enumeration; every function below that iterates over a dictionary
      treats each key independently of the others, and no statement proved
      here depends on the order of enumeration.
    - A [polib.POFile] is the list of its entries (it is a subclass of
      [list]), obsolete entries included.
    - A function that mutates its arguments returns the new values of the
      mutated objects.
    - An exception is a value of an error type in the left summand of a
      [sum]. *)

From Stdlib Require Import ZArith Ascii String.
From stdpp Require Import gmap strings list fin_maps.

Open Scope string_scope.

(** ** Python strings *)

Module PyStr.

(** [str.isspace] on one character, for code points below 256: TAB, LF, VT,
    FF, CR, the separators FS, GS, RS, US, SPACE, NEL and NBSP. *)
Definition isspace (c : ascii) : bool :=
  let n := nat_of_ascii c in
  (((9 <=? n) && (n <=? 13)) || ((28 <=? n) && (n <=? 32))
   || (n =? 133) || (n =? 160))%nat.

(** [s.lstrip()] *)
Fixpoint lstrip (s : string) : string :=
  match s with
  | EmptyString => EmptyString
  | String c s' => if isspace c then lstrip s' else s
  end.

(** [s.rstrip()] *)
Fixpoint rstrip (s : string) : string :=
  match s with
  | EmptyString => EmptyString
  | String c s' =>
      match rstrip s' with
      | EmptyString => if isspace c then EmptyString else String c EmptyString
      | r => String c r
      end
  end.

(** [s.strip()] *)
Definition strip (s : string) : string := rstrip (lstrip s).

(** [s.replace(a, b)] for one-character [a] and [b]. *)
Fixpoint replace_char (a b : ascii) (s : string) : string :=
  match s with
  | EmptyString => EmptyString
  | String c s' =>
      String (if Ascii.eqb c a then b else c) (replace_char a b s')
  end.

(** [s.startswith(p)] *)
Fixpoint startswith (p s : string) : bool :=
  match p, s with
  | EmptyString, _ => true
  | String a p', String c s' => Ascii.eqb a c && startswith p' s'
  | String _ _, EmptyString => false
  end.

(** Truth value of a string: [bool(s)]. *)
Definition truthy (s : string) : bool :=
  match s with EmptyString => false | _ => true end.

(** [a or b] on strings. *)
Definition or_else (a b : string) : string := if truthy a then a else b.

(** [a or b] where [a] is [None] or a string (the result of [dict.get]). *)
Definition opt_or_else (a : option string) (b : string) : string :=
  match a with
  | Some s => or_else s b
  | None => b
  end.

End PyStr.

(** ** discovery.py *)

(** [package_name_to_module_name]: [package_name.replace("-", "_")]. *)
Definition package_name_to_module_name (package_name : string) : string :=
  PyStr.replace_char "-" "_" package_name.

(** ** polib entries *)

(** The attributes of a [polib.POEntry] that the code reads. [msgstr_plural]
    is a dictionary from plural index to string. *)
Record POEntry := mkPOEntry {
  msgid : string;
  msgstr : string;
  msgstr_plural : gmap Z string;
  flags : list string;
  obsolete : bool
}.

Abbreviation POFile := (list POEntry).

Global Instance POEntry_eq_dec : EqDecision POEntry.
Proof. solve_decision. Defined.

(** ** convert.py *)

(** The key/value pairs that one pass through the body of the loop of
    [po_to_i18next_json] assigns into [result], in order. *)
Definition entry_items (normalized_package : string) (entry : POEntry)
  : list (string * string) :=
  if obsolete entry then []
  else
    let base_key := msgid entry in
    if negb (PyStr.truthy base_key) then []
    else if bool_decide (msgstr_plural entry ≠ ∅) then
      let singular_value :=
        PyStr.strip (PyStr.opt_or_else (msgstr_plural entry !! 0%Z) base_key) in
      let plural_value :=
        PyStr.strip (PyStr.opt_or_else (msgstr_plural entry !! 1%Z) base_key) in
      [ (normalized_package +:+ ":" +:+ base_key, singular_value);
        (normalized_package +:+ ":" +:+ base_key +:+ "_plural", plural_value) ]
    else
      let value := PyStr.strip (PyStr.or_else (msgstr entry) base_key) in
      [ (normalized_package +:+ ":" +:+ base_key, value) ].

(** [result[k] = v] for each pair in turn. *)
Definition assign_all (result : gmap string string)
    (items : list (string * string)) : gmap string string :=
  foldl (fun r kv => <[kv.1 := kv.2]> r) result items.

Definition po_to_i18next_json (po_file : POFile) (package_name : string)
  : gmap string string :=
  let normalized_package := package_name_to_module_name package_name in
  foldl (fun result entry =>
           assign_all result (entry_items normalized_package entry))
        ∅ po_file.

(** ** validate.py *)

Module Issues.
(** The dataclass [Issues]: three lists of message ids. *)
Record t := mk {
  untranslated : list string;
  fuzzy : list string;
  obsolete : list string
}.
Definition empty : t := mk [] [] [].
End Issues.

Module Counts.
Record t := mk {
  untranslated : nat;
  fuzzyTranslations : nat;
  obsoleteTranslations : nat
}.

Definition from_issues (issues : Issues.t) : t :=
  mk (length (Issues.untranslated issues))
     (length (Issues.fuzzy issues))
     (length (Issues.obsolete issues)).

Definition total (c : t) : nat :=
  untranslated c + fuzzyTranslations c + obsoleteTranslations c.
End Counts.

(** A path is the list of its components. *)
Abbreviation Path := (list string).

Record ValidationReport := mkValidationReport {
  report_package : string;
  report_locale : string;
  report_filename : Path;
  report_issues : Issues.t;
  report_counts : Counts.t
}.

(** The body of the loop of [validate_po]: the [if]/[elif]/[elif] chain. *)
Definition validate_entry (issues : Issues.t) (entry : POEntry) : Issues.t :=
  if obsolete entry then
    Issues.mk (Issues.untranslated issues) (Issues.fuzzy issues)
              (Issues.obsolete issues ++ [msgid entry])
  else if bool_decide ("fuzzy" ∈ flags entry) then
    Issues.mk (Issues.untranslated issues)
              (Issues.fuzzy issues ++ [msgid entry])
              (Issues.obsolete issues)
  else if negb (PyStr.truthy (msgstr entry))
          && negb (bool_decide (msgstr_plural entry ≠ ∅)) then
    Issues.mk (Issues.untranslated issues ++ [msgid entry])
              (Issues.fuzzy issues) (Issues.obsolete issues)
  else issues.

Definition validate_po (po_file : POFile) (package_name locale : string)
    (po_path : Path) : ValidationReport :=
  let issues := foldl validate_entry Issues.empty po_file in
  let counts := Counts.from_issues issues in
  mkValidationReport (package_name_to_module_name package_name) locale po_path
                     issues counts.

(** ** utils.py: the conversion used by fetch-from-transifex *)

Inductive PyError :=
| KeyError (key : Z).

(** Results of code that may raise. *)
Abbreviation Raises A := (PyError + A)%type.

Definition ret {A} (a : A) : Raises A := inr a.
Definition raise {A} (e : PyError) : Raises A := inl e.
Definition bind {A B} (m : Raises A) (k : A → Raises B) : Raises B :=
  match m with
  | inl e => inl e
  | inr a => k a
  end.

Notation "'let!' x ':=' m 'in' k" := (bind m (fun x => k))
  (at level 10, x name, m at level 100, k at level 200).

(** [d[k]] on the plural dictionary: raises [KeyError] on a missing index. *)
Definition getitem (d : gmap Z string) (k : Z) : Raises string :=
  match d !! k with
  | Some v => ret v
  | None => raise (KeyError k)
  end.

(** The body of the loop of [map_to_i18next_style]. *)
Definition map_entry_to_i18next_style (obj : gmap string string)
    (entry : POEntry) : Raises (gmap string string) :=
  let obj := <[msgid entry := msgstr entry]> obj in
  if bool_decide (msgstr_plural entry ≠ ∅) then
    let! singular := getitem (msgstr_plural entry) 0%Z in
    let obj := <[msgid entry := singular]> obj in
    let! plural := getitem (msgstr_plural entry) 1%Z in
    ret (<[msgid entry +:+ "_plural" := plural]> obj)
  else ret obj.

Fixpoint map_entries_to_i18next_style (obj : gmap string string)
    (entries : list POEntry) : Raises (gmap string string) :=
  match entries with
  | [] => ret obj
  | entry :: rest =>
      let! obj' := map_entry_to_i18next_style obj entry in
      map_entries_to_i18next_style obj' rest
  end.

Definition map_to_i18next_style (po_file : POFile)
  : Raises (gmap string string) :=
  map_entries_to_i18next_style ∅ po_file.

(** ** utils.py: dictionaries of translations and of sources *)

Abbreviation LocaleMessages := (gmap string string).
Abbreviation PackageTranslations := (gmap string (gmap string string)).
Abbreviation TranslationsByLang := (gmap string (gmap string (gmap string string))).
Abbreviation SourceList := (list string).
Abbreviation PackageSources := (gmap string (gmap string (list string))).
Abbreviation TranslationSources :=
  (gmap string (gmap string (gmap string (list string)))).

(** [for key, value in d.items(): state = body(state, key, value)] *)
Definition for_items {K A S} `{Countable K} (d : gmap K A)
    (body : S → K → A → S) (s : S) : S :=
  foldl (fun s kv => body s kv.1 kv.2) s (map_to_list d).

(** [d.setdefault(k, v)], also written [if k not in d: d[k] = v]. *)
Definition setdefault {K A} `{Countable K} (k : K) (v : A) (d : gmap K A)
  : gmap K A :=
  match d !! k with
  | Some _ => d
  | None => <[k := v]> d
  end.

(** The test of line 301:
    [key in target[package_name] and target[package_name][key] == value]. *)
Definition holds_equal (target_package : LocaleMessages) (key value : string)
  : bool :=
  bool_decide (target_package !! key = Some value).

(** The body of the inner loop of [merge_js_translations] (lines 295-303) on
    [target[package_name]] and [sources_metadata[package_name]]. *)
Definition merge_key (source_type : string)
    (st : LocaleMessages * gmap string SourceList) (key value : string)
  : LocaleMessages * gmap string SourceList :=
  let sources_package := setdefault key [] st.2 in
  let sources_package :=
    if bool_decide (source_type ∉ sources_package !!! key)
    then <[key := ((sources_package !!! key) ++ [source_type])%list]>
           sources_package
    else sources_package in
  if holds_equal st.1 key value then (st.1, sources_package)
  else (<[key := value]> st.1, sources_package).

(** The body of the outer loop of [merge_js_translations]. *)
Definition merge_package (source_type : string)
    (st : PackageTranslations * option PackageSources)
    (package_name : string) (package_translations : LocaleMessages)
  : PackageTranslations * option PackageSources :=
  let target := setdefault package_name ∅ st.1 in
  match st.2 with
  | Some sources_metadata =>
      let sources_metadata := setdefault package_name ∅ sources_metadata in
      let r := for_items package_translations (merge_key source_type)
                 (target !!! package_name, sources_metadata !!! package_name) in
      (<[package_name := r.1]> target,
       Some (<[package_name := r.2]> sources_metadata))
  | None =>
      (<[package_name := package_translations ∪ (target !!! package_name)]>
         target, None)
  end.

(** [merge_js_translations(target, source, sources_metadata, source_type)]:
    returns the new contents of [target] and of [sources_metadata]. *)
Definition merge_js_translations (target source : PackageTranslations)
    (sources_metadata : option PackageSources) (source_type : string)
  : PackageTranslations * option PackageSources :=
  for_items source (merge_package source_type) (target, sources_metadata).

(** The loop shared by [merge_bundle_js_layers] and
    [merge_instance_js_layers]: [layer] is what
    [collect_bundle_js_translations] or [collect_instance_js_translations]
    returned, [source_type] is ["bundle"] or ["instance"]. *)
Definition merge_layer_locale (source_type : string)
    (st : TranslationsByLang * TranslationSources)
    (locale : string) (layer_data : PackageTranslations)
  : TranslationsByLang * TranslationSources :=
  let translations_by_language := setdefault locale ∅ st.1 in
  let translation_sources := setdefault locale ∅ st.2 in
  let r := merge_js_translations (translations_by_language !!! locale)
             layer_data (Some (translation_sources !!! locale)) source_type in
  (<[locale := r.1]> translations_by_language,
   <[locale := default ∅ r.2]> translation_sources).

Definition merge_bundle_js_layers
    (translations_by_language : TranslationsByLang)
    (translation_sources : TranslationSources)
    (bundle_translations : TranslationsByLang)
  : TranslationsByLang * TranslationSources :=
  for_items bundle_translations (merge_layer_locale "bundle")
    (translations_by_language, translation_sources).

Definition merge_instance_js_layers
    (translations_by_language : TranslationsByLang)
    (translation_sources : TranslationSources)
    (instance_translations : TranslationsByLang)
  : TranslationsByLang * TranslationSources :=
  for_items instance_translations (merge_layer_locale "instance")
    (translations_by_language, translation_sources).

(** [collect_bundle_js_translations]: [files] lists, for every [*.json] file
    of every bundle in turn, the locale (the stem of the file name) and what
    [_load_locale_json] returned for it ([None] when it is unreadable or not
    an object). *)
Definition collect_bundle_js_translations
    (files : list (string * option PackageTranslations))
  : TranslationsByLang :=
  foldl (fun translations_by_language lf =>
           match lf.2 with
           | None => translations_by_language
           | Some bundle_translations =>
               let tbl := setdefault lf.1 ∅ translations_by_language in
               <[lf.1 := (merge_js_translations (tbl !!! lf.1)
                            bundle_translations None "unknown").1]> tbl
           end) ∅ files.

(** [collect_instance_js_translations]: [files] is [None] when the
    directory [translations] does not exist. *)
Definition collect_instance_js_translations
    (files : option (list (string * option PackageTranslations)))
  : TranslationsByLang :=
  match files with
  | None => ∅
  | Some files =>
      foldl (fun translations_by_language lf =>
               match lf.2 with
               | Some translations => <[lf.1 := translations]> translations_by_language
               | None => translations_by_language
               end) ∅ files
  end.

(** ** discovery.py: where the translation files of a package are *)

(** What the code observes of the installation: where [find_spec] locates a
    module, which paths exist, which are directories, the sorted listing of
    a directory, and what [polib.pofile] returns for a path ([None] when it
    raises one of the exceptions the collector catches). The functions on
    it give what the code returns when the lookup and the listing return:
    [find_spec] raises for a dotted name whose parent package is missing,
    and [iterdir] raises for a path that exists and is not a directory;
    [iterdir_raises] below tells the second case. *)
Record Installation := mkInstallation {
  spec_location : string → option Path;
  path_exists : Path → bool;
  is_dir : Path → bool;
  sorted_iterdir : Path → list Path;
  pofile : Path → option POFile
}.

(** [p / c] *)
Definition joinpath (p : Path) (c : string) : Path := (p ++ [c])%list.
Infix "//" := joinpath (at level 40, left associativity).

(** [p.name] *)
Definition path_name (p : Path) : string := default "" (last p).

(** [p.parent] *)
Definition path_parent (p : Path) : Path := removelast p.

Definition find_package_path (inst : Installation) (package_name : string)
  : option Path :=
  spec_location inst (package_name_to_module_name package_name).

Definition _get_translation_roots (package_root : Path)
    (package_name : string) : list Path :=
  [ package_root // "translations";
    package_root // package_name_to_module_name package_name // "translations" ].

Definition _find_po_files_in_roots (inst : Installation)
    (translation_roots : list Path) (po_file_path : Path)
  : list (string * Path) :=
  flat_map (fun base =>
    if negb (path_exists inst base) then []
    else
      flat_map (fun locale_dir =>
        if negb (is_dir inst locale_dir) then []
        else
          let po_path := (locale_dir ++ po_file_path)%list in
          if path_exists inst po_path then [(path_name locale_dir, po_path)]
          else [])
        (sorted_iterdir inst base))
    translation_roots.

Definition find_js_po_files (inst : Installation) (package_root : Path)
    (package_name : string) : list (string * Path) :=
  let module_name := package_name_to_module_name package_name in
  let translation_roots := _get_translation_roots package_root package_name in
  let js_assets_paths :=
    [ package_root // "assets" // "semantic-ui" // "translations"
        // module_name // "messages";
      package_root // "theme" // "assets" // "semantic-ui" // "translations"
        // module_name // "messages" ] in
  (_find_po_files_in_roots inst translation_roots
     ["LC_MESSAGES"; "messages-js.po"]
   ++ _find_po_files_in_roots inst js_assets_paths ["messages.po"])%list.

(** ** utils.py: the collector *)

(** The loop of lines 271-273: [setdefault(key, [])] then
    [append("package")], for every key of [package_translations]. *)
Definition seed_package_sources (package_translations : LocaleMessages)
    (sources_package : gmap string SourceList) : gmap string SourceList :=
  for_items package_translations
    (fun sp key _ =>
       let sp := setdefault key [] sp in
       <[key := ((sp !!! key) ++ ["package"])%list]> sp)
    sources_package.

Definition _add_package_locale_translations (inst : Installation)
    (package_name locale : string) (po_path : Path)
    (st : TranslationsByLang * TranslationSources)
  : TranslationsByLang * TranslationSources :=
  let translations_by_language := setdefault locale ∅ st.1 in
  let translation_sources := setdefault locale ∅ st.2 in
  match pofile inst po_path with
  | None => (translations_by_language, translation_sources)
  | Some po_file =>
      let module_name := package_name_to_module_name package_name in
      let package_translations := po_to_i18next_json po_file package_name in
      let sources_locale :=
        setdefault module_name ∅ (translation_sources !!! locale) in
      let translations_locale := translations_by_language !!! locale in
      let is_first_processing :=
        bool_decide (translations_locale !! module_name = None) in
      let translations_locale :=
        <[module_name := package_translations]> translations_locale in
      let sources_locale :=
        if is_first_processing then
          <[module_name := seed_package_sources package_translations
                             (sources_locale !!! module_name)]> sources_locale
        else sources_locale in
      (<[locale := translations_locale]> translations_by_language,
       <[locale := sources_locale]> translation_sources)
  end.

Definition collect_js_package_translations (inst : Installation)
    (packages : list string) : TranslationsByLang * TranslationSources :=
  foldl (fun st package_name =>
           match find_package_path inst package_name with
           | None => st
           | Some package_root =>
               foldl (fun st lp =>
                        _add_package_locale_translations inst package_name
                          lp.1 lp.2 st)
                     st (find_js_po_files inst package_root package_name)
           end)
        (∅, ∅) packages.

(** ** utils.py: the distributor *)

Definition calculate_target_packages
    (exceptional_package_names : gmap string string)
    (entry_points : list (string * Path)) (language : string)
  : gmap string Path :=
  foldl (fun package_translations_paths entry_point =>
           let package_name := entry_point.1 in
           let package_path := entry_point.2 in
           let package_name :=
             default package_name (exceptional_package_names !! package_name) in
           let target_translations_path :=
             package_path // "translations" // package_name // "messages"
               // language in
           <[package_name := target_translations_path // "translations.json"]>
             package_translations_paths)
        ∅ entry_points.

Section Distributor.

(** The type of the JSON value stored under a top-level key; the
    distributor copies it without looking into it. *)
Context {JSON : Type}.

(** The part of the file system the distributor writes to. *)
Record FileSystem := mkFileSystem {
  directories : gset Path;
  files : gmap Path JSON
}.

(** [p.mkdir(parents=True, exist_ok=True)]: [p] and its ancestors. *)
Definition mkdir_parents (p : Path) (fs : FileSystem) : FileSystem :=
  mkFileSystem
    (directories fs ∪ list_to_set (map (fun n => take n p) (seq 1 (length p))))
    (files fs).

(** [open("w")] followed by [dump]: the file is replaced as a whole. *)
Definition write_json (p : Path) (content : JSON) (fs : FileSystem)
  : FileSystem :=
  mkFileSystem (directories fs) (<[p := content]> (files fs)).

(** One element of [results]:
    [(package_name, language, target_file, skipped)]. *)
Definition DistributionResult : Type :=
  string * string * option Path * bool.

Variable exceptional_package_names : gmap string string.
Variable entry_points : list (string * Path).

(** The body of the inner loop of
    [distribute_js_translations_from_directory]. *)
Definition distribute_package (language : string)
    (target_packages : gmap string Path)
    (st : list DistributionResult * FileSystem)
    (package_name : string) (translations : JSON)
  : list DistributionResult * FileSystem :=
  if PyStr.startswith "_" package_name then st
  else
    match target_packages !! package_name with
    | None => ((st.1 ++ [(package_name, language, None, true)])%list, st.2)
    | Some target_file =>
        let fs := mkdir_parents (path_parent target_file) st.2 in
        let fs := write_json target_file translations fs in
        ((st.1 ++ [(package_name, language, Some target_file, false)])%list,
         fs)
    end.

(** [distribute_js_translations_from_directory]: [source_files] is what
    [source_translation_files(input_directory)] yields, the language and
    the parsed object of every readable [*.json] file. *)
Definition distribute_js_translations_from_directory
    (source_files : list (string * gmap string JSON)) (fs : FileSystem)
  : list DistributionResult * FileSystem :=
  foldl (fun st lu =>
           let language := lu.1 in
           let unified_translations := lu.2 in
           let target_packages :=
             calculate_target_packages exceptional_package_names
               entry_points language in
           for_items unified_translations
             (distribute_package language target_packages) st)
        ([], fs) source_files.

End Distributor.

Arguments FileSystem : clear implicits.

(** ** Derived notions used in the statements *)

(** What lines 298-299 do to one list of sources. *)
Definition add_source (source_type : string) (l : SourceList) : SourceList :=
  if bool_decide (source_type ∈ l) then l else (l ++ [source_type])%list.

(** [d.get(p, {}).get(k)] and [d.get(loc, {}).get(p, {}).get(k)]. *)
Definition get2 {A} (d : gmap string (gmap string A)) (p k : string)
  : option A :=
  d !! p ≫= fun kd => kd !! k.

Definition get3 {A} (d : gmap string (gmap string (gmap string A)))
    (loc p k : string) : option A :=
  d !! loc ≫= fun pd => get2 pd p k.

(** [a] occurs in [l] at a position before an occurrence of [b]. *)
Definition occurs_before (a b : string) (l : list string) : Prop :=
  ∃ l1 l2 l3, l = (l1 ++ a :: l2 ++ b :: l3)%list.

(** The message id as the fallback for a missing or empty form. *)
Definition form_or_msgid (form : option string) (id : string) : string :=
  match form with
  | Some s => if decide (s = "") then id else s
  | None => id
  end.

(** The three buckets, as the specification words them. *)
Definition in_obsolete (e : POEntry) : bool := obsolete e.

Definition in_fuzzy (e : POEntry) : bool :=
  negb (obsolete e) && bool_decide ("fuzzy" ∈ flags e).

Definition in_untranslated (e : POEntry) : bool :=
  negb (obsolete e) && negb (bool_decide ("fuzzy" ∈ flags e))
  && bool_decide (msgstr e = "") && bool_decide (msgstr_plural e = ∅).

(** The message ids of the entries of a bucket, in file order. *)
Definition bucket_ids (bucket : POEntry → bool) (po_file : POFile)
  : list string :=
  msgid <$> filter (fun e => bucket e = true) po_file.

(** What one package of the source layer does to the target's and the
    metadata's entry for that package. *)
Definition merged_package (ty : string) (pt : LocaleMessages)
    (v : option LocaleMessages * option (option (gmap string SourceList)))
  : option LocaleMessages * option (option (gmap string SourceList)) :=
  match v.2 with
  | Some o =>
      let r := for_items pt (merge_key ty) (default ∅ v.1, default ∅ o) in
      (Some r.1, Some (Some r.2))
  | None => (Some (pt ∪ default ∅ v.1), None)
  end.

Definition package_view (p : string)
    (st : PackageTranslations * option PackageSources)
  : option LocaleMessages * option (option (gmap string SourceList)) :=
  (st.1 !! p, (fun sm : PackageSources => sm !! p) <$> st.2).

(** The same for one locale of a layer. *)
Definition locale_view (loc : string)
    (st : TranslationsByLang * TranslationSources)
  : option PackageTranslations * option PackageSources :=
  (st.1 !! loc, st.2 !! loc).

Definition merged_locale (ty : string) (data : PackageTranslations)
    (v : option PackageTranslations * option PackageSources)
  : option PackageTranslations * option PackageSources :=
  let r := merge_js_translations (default ∅ v.1) data
             (Some (default ∅ v.2)) ty in
  (Some r.1, Some (default ∅ r.2)).

(** [d.get(loc, {}).get(p)] *)
Definition get_package {A} (d : gmap string (gmap string A))
    (loc p : string) : option A :=
  d !! loc ≫= fun pd => pd !! p.

(** The collected state is well seeded when every list of sources is
    [["package"]] and belongs to a package that has collected
    translations. *)
Definition seeded (st : TranslationsByLang * TranslationSources) : Prop :=
  ∀ loc p k l,
    get3 st.2 loc p k = Some l →
    l = ["package"] ∧ is_Some (get_package st.1 loc p).

(** The record that the loop body of the distributor appends for a key
    that is not metadata. *)
Definition record_of (exceptional_package_names : gmap string string)
    (entry_points : list (string * Path)) (language package_name : string)
  : string * string * option Path * bool :=
  let target :=
    calculate_target_packages exceptional_package_names entry_points language
      !! package_name in
  (package_name, language, target, bool_decide (target = None)).

(** Two entries of one file: a message with plural forms, and a message
    whose id is the id of the first followed by ["_plural"]. *)
Definition plural_item : POEntry :=
  mkPOEntry "item" "" {[ 0%Z := "Ding"; 1%Z := "Dinge" ]} [] false.
Definition item_plural_message : POEntry :=
  mkPOEntry "item_plural" "Mehrzahl" ∅ [] false.

(** A package with one file for the locale [de]. *)
Module OneLocation.
Definition root : Path := ["site-packages"; "invenio_app"].
Definition lc_dir : Path := root // "translations".
Definition lc_file : Path :=
  lc_dir // "de" // "LC_MESSAGES" // "messages-js.po".

Definition installation : Installation :=
  mkInstallation
    (fun module_name =>
       if decide (module_name = "invenio_app") then Some root else None)
    (fun p => bool_decide (p ∈ [lc_dir; lc_dir // "de"; lc_file]))
    (fun p => bool_decide (p ∈ [lc_dir; lc_dir // "de"]))
    (fun p => if decide (p = lc_dir) then [lc_dir // "de"] else [])
    (fun p => if decide (p = lc_file)
              then Some [mkPOEntry "Save" "Speichern" ∅ [] false]
              else None).
End OneLocation.

(** A package whose JavaScript translations for the locale [de] are found
    in two of the locations that [find_js_po_files] scans:
    [translations/de/LC_MESSAGES/messages-js.po] with the message ["Save"]
    and [assets/semantic-ui/translations/invenio_app/messages/de/messages.po]
    with the message ["Upload"]. *)
Module TwoLocations.
Definition root : Path := ["site-packages"; "invenio_app"].
Definition lc_dir : Path := root // "translations".
Definition lc_file : Path :=
  lc_dir // "de" // "LC_MESSAGES" // "messages-js.po".
Definition assets_dir : Path :=
  root // "assets" // "semantic-ui" // "translations" // "invenio_app"
    // "messages".
Definition assets_file : Path := assets_dir // "de" // "messages.po".

Definition installation : Installation :=
  mkInstallation
    (fun module_name =>
       if decide (module_name = "invenio_app") then Some root else None)
    (fun p => bool_decide (p ∈ [lc_dir; lc_dir // "de"; lc_file;
                                assets_dir; assets_dir // "de";
                                assets_file]))
    (fun p => bool_decide (p ∈ [lc_dir; lc_dir // "de";
                                assets_dir; assets_dir // "de"]))
    (fun p => if decide (p = lc_dir) then [lc_dir // "de"]
              else if decide (p = assets_dir) then [assets_dir // "de"]
              else [])
    (fun p => if decide (p = lc_file)
              then Some [mkPOEntry "Save" "Speichern" ∅ [] false]
              else if decide (p = assets_file)
              then Some [mkPOEntry "Upload" "Hochladen" ∅ [] false]
              else None).
End TwoLocations.

(** The example of the specification: the file [de.json] holds
    [{"unknown_pkg": {"A": "B"}}] and the registry has no entry point. *)
Definition unknown_pkg_input : list (string * gmap string (gmap string string)) :=
  [("de", {[ "unknown_pkg" := {[ "A" := "B" ]} ]})].

(** ** discovery.py: the files of the Python translations *)

Definition find_po_files (inst : Installation) (package_root : Path)
    (package_name : string) : list (string * Path) :=
  let translation_roots := _get_translation_roots package_root package_name in
  _find_po_files_in_roots inst translation_roots ["LC_MESSAGES"; "messages.po"].

(** A package with a Python and a JavaScript translation file for the
    locale [de] in the same directory. *)
Module BothKinds.
Definition root : Path := ["site-packages"; "invenio_app"].
Definition lc_dir : Path := root // "translations".
Definition py_file : Path :=
  lc_dir // "de" // "LC_MESSAGES" // "messages.po".
Definition js_file : Path :=
  lc_dir // "de" // "LC_MESSAGES" // "messages-js.po".

Definition installation : Installation :=
  mkInstallation
    (fun module_name =>
       if decide (module_name = "invenio_app") then Some root else None)
    (fun p => bool_decide (p ∈ [lc_dir; lc_dir // "de"; py_file; js_file]))
    (fun p => bool_decide (p ∈ [lc_dir; lc_dir // "de"]))
    (fun p => if decide (p = lc_dir) then [lc_dir // "de"] else [])
    (fun p => if decide (p = py_file)
              then Some [mkPOEntry "Save" "Speichern" ∅ ["fuzzy"] false;
                         mkPOEntry "Upload" "" ∅ [] false]
              else if decide (p = js_file)
              then Some [mkPOEntry "Save" "Speichern" ∅ [] false]
              else None).
End BothKinds.

(** The files that the collector reads, in the order in which it reads
    them: for every package that is installed, the JavaScript translation
    files found for it, each with the package name and the locale. *)
Definition collection_jobs (inst : Installation) (packages : list string)
  : list (string * string * Path) :=
  flat_map (fun package_name =>
              match find_package_path inst package_name with
              | Some package_root =>
                  (fun lp : string * Path => (package_name, lp.1, lp.2))
                    <$> find_js_po_files inst package_root package_name
              | None => []
              end) packages.

(** ** utils.py: the writer of the merged translations *)

(** The values of the metadata block: the description, and per package the
    lists of sources of its keys. *)
Inductive SourcesEntry :=
| Description (text : string)
| KeySources (sources : gmap string SourceList).

(** The values under the top-level keys of a written document: the messages
    of a package, or the metadata block. *)
Inductive OutputValue :=
| PackageMessages (messages : LocaleMessages)
| SourcesBlock (block : gmap string SourcesEntry).

Definition metadata_description : string :=
  "Translation source tracking metadata. Structure: {package_name: {translation_key: [source_types]}}. Source types: 'package' = from package PO files, 'bundle' = from translation bundle JSON, 'instance' = from instance-level JSON overrides. Keys with multiple sources indicate overrides/conflicts.".

(** [_add_metadata_block]: the dictionary display
    [{"_description": ..., **translation_sources[locale]}] lets the keys of
    the sources override the description. *)
Definition _add_metadata_block (locale : string)
    (translations : PackageTranslations)
    (translation_sources : TranslationSources) : gmap string OutputValue :=
  let output_data := PackageMessages <$> translations in
  match translation_sources !! locale with
  | Some sources_locale =>
      if bool_decide (sources_locale ≠ ∅) then
        <["_translation_sources" :=
            SourcesBlock
              ((KeySources <$> sources_locale)
               ∪ {[ "_description" := Description metadata_description ]})]>
          output_data
      else output_data
  | None => output_data
  end.

(** [write_js_translation_outputs]: returns the paths written, in the order
    of writing, and the new file system. *)
Definition write_js_translation_outputs
    (translations_by_language : TranslationsByLang)
    (translation_sources : TranslationSources) (output_directory : Path)
    (fs : FileSystem (gmap string OutputValue))
  : list Path * FileSystem (gmap string OutputValue) :=
  let fs := mkdir_parents output_directory fs in
  for_items translations_by_language
    (fun st locale translations =>
       let json_path := output_directory // (locale +:+ ".json") in
       let output_data :=
         _add_metadata_block locale translations translation_sources in
       ((st.1 ++ [json_path])%list, write_json json_path output_data st.2))
    ([], fs).

(** ** validate.py: the summary of the reports *)

Module ProblematicLanguage.
Record t := mk {
  locale : string;
  counts : Counts.t
}.
End ProblematicLanguage.

Module PackageBreakdown.
Record t := mk {
  locales : nat;
  total_issues : nat;
  untranslated_strings : nat;
  fuzzy_translations : nat;
  problematic_languages : list ProblematicLanguage.t
}.
Definition empty : t := mk 0 0 0 0 [].

(** What the loop of [calculate_validation_summary] does to
    [package_breakdown[pkg]] for one report. *)
Definition add_report (report : ValidationReport) (b : t) : t :=
  let counts := report_counts report in
  let total := Counts.total counts in
  mk (locales b + 1)
     (total_issues b + total)
     (untranslated_strings b + Counts.untranslated counts)
     (fuzzy_translations b + Counts.fuzzyTranslations counts)
     (if (0 <? total)%nat
      then (problematic_languages b
            ++ [ProblematicLanguage.mk (report_locale report) counts])%list
      else problematic_languages b).
End PackageBreakdown.

Module LanguageBreakdown.
Record t := mk {
  packages : nat;
  total_issues : nat;
  untranslated_strings : nat;
  fuzzy_translations : nat;
  is_complete : bool
}.
Definition empty : t := mk 0 0 0 0 true.

(** What the loop does to [language_breakdown[locale]] for one report. *)
Definition add_report (report : ValidationReport) (b : t) : t :=
  let counts := report_counts report in
  let total := Counts.total counts in
  mk (packages b + 1)
     (total_issues b + total)
     (untranslated_strings b + Counts.untranslated counts)
     (fuzzy_translations b + Counts.fuzzyTranslations counts)
     (if (0 <? total)%nat then false else is_complete b).
End LanguageBreakdown.

Module ValidationSummary.
Record t := mk {
  total_packages : nat;
  total_locales : nat;
  total_issues : nat;
  untranslated_strings : nat;
  fuzzy_translations : nat;
  package_breakdown : gmap string PackageBreakdown.t;
  language_breakdown : gmap string LanguageBreakdown.t;
  reports : list ValidationReport
}.
End ValidationSummary.

Record PackageValidation := mkPackageValidation {
  pv_package_name : string;
  pv_reports : list ValidationReport
}.

(** The body of the loop over [all_reports]. *)
Definition summary_step
    (st : gmap string PackageBreakdown.t * gmap string LanguageBreakdown.t)
    (report : ValidationReport)
  : gmap string PackageBreakdown.t * gmap string LanguageBreakdown.t :=
  let pkg := report_package report in
  let locale := report_locale report in
  let package_breakdown := setdefault pkg PackageBreakdown.empty st.1 in
  let package_breakdown :=
    alter (PackageBreakdown.add_report report) pkg package_breakdown in
  let language_breakdown := setdefault locale LanguageBreakdown.empty st.2 in
  let language_breakdown :=
    alter (LanguageBreakdown.add_report report) locale language_breakdown in
  (package_breakdown, language_breakdown).

Definition calculate_validation_summary
    (package_validations : list PackageValidation) (packages : list string)
  : ValidationSummary.t :=
  let all_reports := concat (pv_reports <$> package_validations) in
  let breakdowns := foldl summary_step (∅, ∅) all_reports in
  let all_locales : gset string := list_to_set (report_locale <$> all_reports) in
  ValidationSummary.mk
    (length packages)
    (size all_locales)
    (sum_list ((fun r => Counts.total (report_counts r)) <$> all_reports))
    (sum_list ((fun r => Counts.untranslated (report_counts r))
                 <$> all_reports))
    (sum_list ((fun r => Counts.fuzzyTranslations (report_counts r))
                 <$> all_reports))
    breakdowns.1 breakdowns.2 all_reports.

(** ** collect.py: the translations of the Python packages *)

Module Message.
Record t := mk { msgid : string; text : string }.
End Message.

Module TranslationBundle.
Record t := mk { locale : string; messages : list Message.t }.
End TranslationBundle.

Module PackageTranslation.
Record t := mk {
  package_name : string;
  translation_bundles : list TranslationBundle.t
}.

(** The first bundle of the locale in the list, [None] without one. *)
Definition get_translation_bundle (self : t) (locale : string)
  : option TranslationBundle.t :=
  List.find (fun bundle =>
               bool_decide (TranslationBundle.locale bundle = locale))
            (translation_bundles self).

(** [bundle.messages.append(...)] on the bundle that
    [get_translation_bundle] returned. The bundle is the element of
    [translation_bundles] itself, not a copy: the list holds the new
    messages, at the first bundle of the locale. *)
Fixpoint append_messages (locale : string) (new : list Message.t)
    (bundles : list TranslationBundle.t) : list TranslationBundle.t :=
  match bundles with
  | [] => []
  | bundle :: rest =>
      if bool_decide (TranslationBundle.locale bundle = locale)
      then TranslationBundle.mk (TranslationBundle.locale bundle)
             (TranslationBundle.messages bundle ++ new)%list :: rest
      else bundle :: append_messages locale new rest
  end.

Definition add (self : t) (locale : string) (po_file : POFile) : t :=
  let bundles :=
    match get_translation_bundle self locale with
    | None =>
        (translation_bundles self ++ [TranslationBundle.mk locale []])%list
    | Some _ => translation_bundles self
    end in
  let translations := po_to_i18next_json po_file (package_name self) in
  mk (package_name self)
     (append_messages locale
        ((fun kv : string * string => Message.mk kv.1 kv.2)
           <$> map_to_list translations)
        bundles).
End PackageTranslation.

(** [{msg.msgid: msg.text for msg in bundle.messages}] *)
Definition messages_dict (bundle : TranslationBundle.t) : gmap string string :=
  foldl (fun d msg => <[Message.msgid msg := Message.text msg]> d)
        ∅ (TranslationBundle.messages bundle).

Definition build_global_translation_bundle (locale : string)
    (package_translations : list PackageTranslation.t)
  : gmap string (gmap string string) :=
  foldl (fun result package_translation =>
           match PackageTranslation.get_translation_bundle
                   package_translation locale with
           | Some bundle =>
               let translations := messages_dict bundle in
               if decide (translations = ∅) then result
               else <[PackageTranslation.package_name package_translation
                      := translations]> result
           | None => result
           end)
        ∅ package_translations.

(** [locales is not None and locale not in locales] *)
Definition locale_filtered_out (locales : option (list string))
    (locale : string) : bool :=
  match locales with
  | Some ls => bool_decide (locale ∉ ls)
  | None => false
  end.

(** [sorted(base.iterdir())] in [_find_po_files_in_roots] is reached for
    every root that exists, and raises [NotADirectoryError] when the root
    is not a directory. *)
Definition iterdir_raises (inst : Installation)
    (translation_roots : list Path) : bool :=
  existsb (fun base => path_exists inst base && negb (is_dir inst base))
          translation_roots.

(** The result is [None] when the function ends with an exception. The
    search of the files raises when a translation root exists and is not a
    directory (the search is a generator: the files found before that root
    are added first, and the function ends with the error all the same);
    [polib.pofile] is called outside any [try], so a file that cannot be
    read ends the function too. *)
Definition get_package_translations (inst : Installation)
    (package_name : string) (locales : option (list string))
  : option PackageTranslation.t :=
  let package_root := find_package_path inst package_name in
  let normalized_name := package_name_to_module_name package_name in
  let package_translation := PackageTranslation.mk normalized_name [] in
  match package_root with
  | None => Some package_translation
  | Some package_root =>
      if iterdir_raises inst
           (_get_translation_roots package_root package_name)
      then None
      else
        foldl (fun acc (lp : string * Path) =>
                 match acc with
                 | None => None
                 | Some package_translation =>
                     if locale_filtered_out locales lp.1
                     then Some package_translation
                     else
                       match pofile inst lp.2 with
                       | None => None
                       | Some po_file =>
                           Some (PackageTranslation.add package_translation
                                   lp.1 po_file)
                       end
                 end)
              (Some package_translation)
              (find_po_files inst package_root package_name)
  end.

(** What the bundle of a locale holds, as a dictionary. *)
Definition bundle_view (pt : PackageTranslation.t) (locale : string)
  : option (gmap string string) :=
  messages_dict <$> PackageTranslation.get_translation_bundle pt locale.

(** The files of a package that the locale filter lets through. *)
Definition accepted_po_files (inst : Installation) (package_root : Path)
    (package_name : string) (locales : option (list string))
  : list (string * Path) :=
  filter (fun lp : string * Path => locale_filtered_out locales lp.1 = false)
         (find_po_files inst package_root package_name).

(** The conversions of the files of one locale laid over each other in
    the order of the files, later files over earlier ones. *)
Definition layered_conversions (inst : Installation) (package_name : string)
    (locale : string) (jobs : list (string * Path)) : gmap string string :=
  foldl (fun acc (lp : string * Path) =>
           match pofile inst lp.2 with
           | Some po_file => po_to_i18next_json po_file package_name ∪ acc
           | None => acc
           end)
        ∅ (filter (fun lp : string * Path => lp.1 = locale) jobs).

(** The merger as the specification words it: the loops of
    [merge_js_translations] with the assignment made for every key,
    whatever the target holds (no test before it). The lists of sources
    are handled as in [merge_key]. *)
Definition merge_key_overwriting (source_type : string)
    (st : LocaleMessages * gmap string SourceList) (key value : string)
  : LocaleMessages * gmap string SourceList :=
  let sources_package := setdefault key [] st.2 in
  let sources_package :=
    if bool_decide (source_type ∉ sources_package !!! key)
    then <[key := ((sources_package !!! key) ++ [source_type])%list]>
           sources_package
    else sources_package in
  (<[key := value]> st.1, sources_package).

Definition merge_package_overwriting (source_type : string)
    (st : PackageTranslations * option PackageSources)
    (package_name : string) (package_translations : LocaleMessages)
  : PackageTranslations * option PackageSources :=
  let target := setdefault package_name ∅ st.1 in
  match st.2 with
  | Some sources_metadata =>
      let sources_metadata := setdefault package_name ∅ sources_metadata in
      let r := for_items package_translations
                 (merge_key_overwriting source_type)
                 (target !!! package_name, sources_metadata !!! package_name) in
      (<[package_name := r.1]> target,
       Some (<[package_name := r.2]> sources_metadata))
  | None =>
      (<[package_name := package_translations ∪ (target !!! package_name)]>
         target, None)
  end.

Definition merge_js_translations_overwriting
    (target source : PackageTranslations)
    (sources_metadata : option PackageSources) (source_type : string)
  : PackageTranslations * option PackageSources :=
  for_items source (merge_package_overwriting source_type)
    (target, sources_metadata).

(** The entries that the converter keeps, and their keys and values, as
    the specification words them: an entry is kept when it is not obsolete
    and has a message id; its key is ["<pkg>:<msgid>"], and with plural
    forms it has the key followed by ["_plural"] too; its values are the
    stripped translated string, or the stripped plural forms 0 and 1, with
    the message id in place of a missing or empty one. *)
Definition is_kept (e : POEntry) : bool :=
  negb (obsolete e) && negb (bool_decide (msgid e = "")).

Definition has_plural_forms (e : POEntry) : bool :=
  bool_decide (msgstr_plural e ≠ ∅).

Definition key_of (pkg : string) (e : POEntry) : string :=
  pkg +:+ ":" +:+ msgid e.

Definition plural_key_of (pkg : string) (e : POEntry) : string :=
  pkg +:+ ":" +:+ msgid e +:+ "_plural".

Definition keys_of (pkg : string) (e : POEntry) : list string :=
  if is_kept e then
    if has_plural_forms e then [key_of pkg e; plural_key_of pkg e]
    else [key_of pkg e]
  else [].

Definition normalized_msgstr (e : POEntry) : string :=
  PyStr.strip (form_or_msgid (Some (msgstr e)) (msgid e)).

Definition normalized_form (i : Z) (e : POEntry) : string :=
  PyStr.strip (form_or_msgid (msgstr_plural e !! i) (msgid e)).

(** * The embedding on small inputs *)

Example strip_surrounding_whitespace :
  PyStr.strip "  Neuer  Eintrag " = "Neuer  Eintrag".
Proof. reflexivity. Qed.

Example strip_only_whitespace : PyStr.strip "   " = "".
Proof. reflexivity. Qed.

Example module_name_of_package :
  package_name_to_module_name "invenio-app-rdm" = "invenio_app_rdm".
Proof. reflexivity. Qed.

(** One message without plural forms, one with an empty translation, one
    obsolete message and one message without id. *)
Example convert_small_file :
  let r := po_to_i18next_json
             [ mkPOEntry "Save" "Speichern" ∅ [] false;
               mkPOEntry "Cancel" "" ∅ ["fuzzy"] false;
               mkPOEntry "Old" "Alt" ∅ [] true;
               mkPOEntry "" "header" ∅ [] false ] "invenio-app" in
  r !! "invenio_app:Save" = Some "Speichern" ∧
  r !! "invenio_app:Cancel" = Some "Cancel" ∧
  size r = 2%nat.
Proof. vm_compute. done. Qed.

Example validate_small_file :
  report_issues
    (validate_po
       [ mkPOEntry "Save" "Speichern" ∅ [] false;
         mkPOEntry "Cancel" "" ∅ ["fuzzy"] false;
         mkPOEntry "Old" "" ∅ ["fuzzy"] true;
         mkPOEntry "Upload" "" ∅ [] false;
         mkPOEntry "file" "" {[ 0%Z := "Datei" ]} [] false ]
       "invenio-app" "de" ["messages.po"])
  = Issues.mk ["Upload"] ["Cancel"] ["Old"].
Proof. vm_compute. reflexivity. Qed.

(** The package of [OneLocation]: the message ["Save"] of its file is
    collected under the module name, with the source ["package"]; a package
    that is not installed is skipped. *)
Example collect_one_location :
  let r := collect_js_package_translations OneLocation.installation
             ["invenio-app"; "not-installed"] in
  get3 r.1 "de" "invenio_app" "invenio_app:Save" = Some "Speichern" ∧
  get3 r.2 "de" "invenio_app" "invenio_app:Save" = Some ["package"] ∧
  get_package r.1 "de" "not_installed" = None.
Proof. vm_compute. done. Qed.

(** * Facts about iteration over a dictionary *)

Lemma foldl_invariant {S B} (f : S → B → S) (I : S → Prop)
    (items : list B) (s : S) :
  I s → (∀ s x, x ∈ items → I s → I (f s x)) → I (foldl f s items).
Proof.
  revert s. induction items as [|x items IH]; intros s Hs Hstep; [done|].
  simpl. apply IH.
  - apply Hstep; [apply list_elem_of_here|done].
  - intros s' y Hy. apply Hstep. by apply list_elem_of_further.
Qed.

Lemma foldl_reaches {S B} (f : S → B → S) (Q : S → Prop)
    (items : list B) (s : S) (x : B) :
  x ∈ items → (∀ s, Q (f s x)) → (∀ s y, y ∈ items → Q s → Q (f s y)) →
  Q (foldl f s items).
Proof.
  revert s. induction items as [|y items IH]; intros s Hx Hhit Hkeep.
  - by apply elem_of_nil in Hx.
  - simpl. apply elem_of_cons in Hx as [->|Hx].
    + apply foldl_invariant; [apply Hhit|].
      intros s' z Hz. apply Hkeep. by apply list_elem_of_further.
    + apply IH; [done|done|].
      intros s' z Hz. apply Hkeep. by apply list_elem_of_further.
Qed.

Section for_items_facts.
Context {K A S V : Type} `{Countable K}.
Variable body : S → K → A → S.
Variable view : S → V.
Variable k : K.
Variable g : A → V → V.

(** The loop body leaves the view alone on other keys, and changes it by
    [g] on the key [k]. *)
Hypothesis frame : ∀ s k' a, k' ≠ k → view (body s k' a) = view s.
Hypothesis hit : ∀ s a, view (body s k a) = g a (view s).

Lemma foldl_items_view (items : list (K * A)) (s : S) :
  NoDup items.*1 →
  view (foldl (fun s kv => body s kv.1 kv.2) s items) =
    match (list_to_map items : gmap K A) !! k with
    | Some a => g a (view s)
    | None => view s
    end.
Proof using frame hit.
  revert s. induction items as [|[k0 a0] items IH]; intros s Hnd.
  - simpl. by rewrite lookup_empty.
  - apply NoDup_cons in Hnd as [Hk0 Hnd]. simpl.
    rewrite IH by done. destruct (decide (k0 = k)) as [->|Hne].
    + rewrite lookup_insert_eq.
      rewrite (not_elem_of_list_to_map_1 _ _ Hk0). apply hit.
    + rewrite lookup_insert_ne by done. rewrite frame by done. done.
Qed.

Lemma for_items_view (d : gmap K A) (s : S) :
  view (for_items d body s) =
    match d !! k with
    | Some a => g a (view s)
    | None => view s
    end.
Proof using frame hit.
  unfold for_items. rewrite foldl_items_view by apply NoDup_fst_map_to_list.
  by rewrite list_to_map_to_list.
Qed.
End for_items_facts.

Lemma setdefault_lookup {K A} `{Countable K} (k k' : K) (v : A)
    (d : gmap K A) :
  setdefault k v d !! k' =
    if decide (k = k') then Some (default v (d !! k)) else d !! k'.
Proof.
  unfold setdefault. destruct (d !! k) as [x|] eqn:E.
  - case_decide; by simplify_eq.
  - rewrite lookup_insert. by case_decide.
Qed.

Lemma setdefault_total `{Inhabited A} (k : string) (v : A)
    (d : gmap string A) :
  setdefault k v d !!! k = default v (d !! k).
Proof.
  rewrite lookup_total_alt, setdefault_lookup. rewrite decide_True by done.
  done.
Qed.

Lemma add_source_elem ty l : ty ∈ add_source ty l.
Proof.
  unfold add_source. case_bool_decide; [done|]. set_solver.
Qed.

Lemma add_source_idemp ty l : add_source ty (add_source ty l) = add_source ty l.
Proof.
  unfold add_source at 1. by rewrite bool_decide_eq_true_2 by apply add_source_elem.
Qed.

(** * The merger, one key at a time *)

Lemma merge_key_value_hit ty st k v : (merge_key ty st k v).1 !! k = Some v.
Proof.
  unfold merge_key, holds_equal. case_bool_decide; simpl; [done|].
  apply lookup_insert_eq.
Qed.

Lemma merge_key_value_frame ty st k' v k :
  k' ≠ k → (merge_key ty st k' v).1 !! k = st.1 !! k.
Proof.
  intros. unfold merge_key, holds_equal. case_bool_decide; simpl; [done|].
  by apply lookup_insert_ne.
Qed.

Lemma merge_key_sources_hit ty st k v :
  (merge_key ty st k v).2 !! k = Some (add_source ty (default [] (st.2 !! k))).
Proof.
  unfold merge_key. rewrite setdefault_total.
  assert (∀ (a b : LocaleMessages) (c : gmap string SourceList) (t : bool),
            (if t then (a, c) else (b, c)).2 = c) as -> by by intros ? ? ? [].
  unfold add_source.
  destruct (decide (ty ∈ default [] (st.2 !! k))) as [Hin|Hin].
  - rewrite (bool_decide_eq_true_2 _ Hin).
    rewrite bool_decide_eq_false_2 by (by intros ?).
    rewrite setdefault_lookup. by rewrite decide_True.
  - rewrite (bool_decide_eq_false_2 _ Hin).
    rewrite bool_decide_eq_true_2 by done. apply lookup_insert_eq.
Qed.

Lemma merge_key_sources_frame ty st k' v k :
  k' ≠ k → (merge_key ty st k' v).2 !! k = st.2 !! k.
Proof.
  intros Hne. unfold merge_key.
  assert (∀ (a b : LocaleMessages) (c : gmap string SourceList) (t : bool),
            (if t then (a, c) else (b, c)).2 = c) as -> by by intros ? ? ? [].
  case_bool_decide.
  - rewrite lookup_insert_ne by done. rewrite setdefault_lookup.
    by rewrite decide_False.
  - rewrite setdefault_lookup. by rewrite decide_False.
Qed.

(** The inner loop of [merge_js_translations], key by key. *)
Lemma merge_keys_value ty pt tp sp k :
  (for_items pt (merge_key ty) (tp, sp)).1 !! k =
    match pt !! k with Some v => Some v | None => tp !! k end.
Proof.
  rewrite (for_items_view (merge_key ty) (fun st => st.1 !! k) k
             (fun v _ => Some v)); [done| |].
  - intros. by apply merge_key_value_frame.
  - intros. apply merge_key_value_hit.
Qed.

Lemma merge_keys_sources ty pt tp sp k :
  (for_items pt (merge_key ty) (tp, sp)).2 !! k =
    match pt !! k with
    | Some _ => Some (add_source ty (default [] (sp !! k)))
    | None => sp !! k
    end.
Proof.
  rewrite (for_items_view (merge_key ty) (fun st => st.2 !! k) k
             (fun _ o => Some (add_source ty (default [] o)))); [done| |].
  - intros. by apply merge_key_sources_frame.
  - intros. apply merge_key_sources_hit.
Qed.

(** * The merger, one package at a time *)

Lemma merge_package_hit ty st p pt :
  package_view p (merge_package ty st p pt) =
    merged_package ty pt (package_view p st).
Proof.
  unfold package_view, merge_package, merged_package.
  destruct st as [t [sm|]]; simpl.
  - rewrite !setdefault_total, !lookup_insert_eq. done.
  - rewrite setdefault_total, lookup_insert_eq. done.
Qed.

Lemma merge_package_frame ty st p' pt p :
  p' ≠ p → package_view p (merge_package ty st p' pt) = package_view p st.
Proof.
  intros Hne. unfold package_view, merge_package.
  destruct st as [t [sm|]]; simpl.
  - rewrite !lookup_insert_ne by done. rewrite !setdefault_lookup.
    by rewrite !decide_False by done.
  - rewrite !lookup_insert_ne by done. rewrite !setdefault_lookup.
    by rewrite !decide_False by done.
Qed.

Lemma merge_js_translations_view t src sm ty p :
  package_view p (merge_js_translations t src sm ty) =
    match src !! p with
    | Some pt => merged_package ty pt (package_view p (t, sm))
    | None => package_view p (t, sm)
    end.
Proof.
  unfold merge_js_translations.
  apply (for_items_view (merge_package ty) (package_view p) p
           (merged_package ty)).
  - intros. by apply merge_package_frame.
  - intros. apply merge_package_hit.
Qed.

(** Merging with source tracking returns a metadata dictionary. *)
Lemma merge_js_translations_tracked_some t src m ty :
  ∃ m', (merge_js_translations t src (Some m) ty).2 = Some m'.
Proof.
  pose proof (merge_js_translations_view t src (Some m) ty "") as Hv.
  unfold package_view, merged_package in Hv. simpl in Hv.
  destruct (merge_js_translations t src (Some m) ty) as [t' [m'|]]; [eauto|].
  simpl in Hv. destruct (src !! ""); by inversion Hv.
Qed.

(** The target after a merge, package by package (with or without
    tracking). *)
Lemma merge_js_translations_target t src sm ty p :
  (merge_js_translations t src sm ty).1 !! p =
    match src !! p with
    | Some pt => Some (pt ∪ default ∅ (t !! p))
    | None => t !! p
    end.
Proof.
  pose proof (merge_js_translations_view t src sm ty p) as Hv.
  apply (f_equal fst) in Hv. simpl in Hv. rewrite Hv.
  destruct (src !! p) as [pt|]; [|done].
  unfold merged_package, package_view. simpl. destruct sm; simpl; [|done].
  f_equal. apply map_eq. intros k. rewrite merge_keys_value.
  rewrite lookup_union. destruct (pt !! k), (default ∅ (t !! p) !! k); done.
Qed.

(** The metadata after a tracked merge, package by package. *)
Lemma merge_js_translations_sources t src m ty m' p :
  (merge_js_translations t src (Some m) ty).2 = Some m' →
  m' !! p =
    match src !! p with
    | Some pt =>
        Some (for_items pt (merge_key ty)
                (default ∅ (t !! p), default ∅ (m !! p))).2
    | None => m !! p
    end.
Proof.
  intros Hm'.
  pose proof (merge_js_translations_view t src (Some m) ty p) as Hv.
  apply (f_equal snd) in Hv. unfold package_view in Hv at 1. simpl in Hv.
  rewrite Hm' in Hv. simpl in Hv.
  destruct (src !! p) as [pt|]; unfold merged_package, package_view in Hv;
    simpl in Hv; by inversion Hv.
Qed.

(** The same, key by key. *)
Lemma merge_js_translations_get2_target t src sm ty p k :
  get2 (merge_js_translations t src sm ty).1 p k =
    match get2 src p k with
    | Some v => Some v
    | None => get2 t p k
    end.
Proof.
  unfold get2. rewrite merge_js_translations_target.
  destruct (src !! p) as [pt|]; simpl; [|done].
  rewrite lookup_union.
  destruct (pt !! k) as [v|] eqn:Ek; simpl.
  - by destruct (default ∅ (t !! p) !! k).
  - destruct (t !! p) as [tp|]; simpl.
    + by destruct (tp !! k).
    + by rewrite lookup_empty.
Qed.

Lemma merge_js_translations_get2_sources t src m ty m' p k :
  (merge_js_translations t src (Some m) ty).2 = Some m' →
  get2 m' p k =
    match get2 src p k with
    | Some _ => Some (add_source ty (default [] (get2 m p k)))
    | None => get2 m p k
    end.
Proof.
  intros Hm'. unfold get2.
  rewrite (merge_js_translations_sources _ _ _ _ _ _ Hm').
  destruct (src !! p) as [pt|]; simpl; [|done].
  rewrite merge_keys_sources.
  destruct (pt !! k) as [v|] eqn:Ek; simpl.
  - destruct (m !! p) as [sp|]; simpl; [done|]. by rewrite lookup_empty.
  - destruct (m !! p) as [sp|]; simpl; [done|]. by rewrite lookup_empty.
Qed.

Lemma package_view_ext (a b : PackageTranslations * option PackageSources) :
  (∀ p, package_view p a = package_view p b) → a = b.
Proof.
  destruct a as [ta sa], b as [tb sb]. unfold package_view. simpl.
  intros Hv. f_equal.
  - apply map_eq. intros p. by injection (Hv p).
  - destruct sa as [ma|], sb as [mb|]; simpl in Hv.
    + f_equal. apply map_eq. intros p. specialize (Hv p). by simplify_eq.
    + specialize (Hv ""). by simplify_eq.
    + specialize (Hv ""). by simplify_eq.
    + done.
Qed.

Lemma merge_keys_idemp ty pt st :
  for_items pt (merge_key ty) (for_items pt (merge_key ty) st) =
    for_items pt (merge_key ty) st.
Proof.
  destruct st as [tp sp].
  destruct (for_items pt (merge_key ty) (tp, sp)) as [tp1 sp1] eqn:E1.
  destruct (for_items pt (merge_key ty) (tp1, sp1)) as [tp2 sp2] eqn:E2.
  f_equal; apply map_eq; intros k.
  - pose proof (merge_keys_value ty pt tp1 sp1 k) as H2.
    pose proof (merge_keys_value ty pt tp sp k) as H1.
    rewrite E2 in H2. rewrite E1 in H1. simpl in *. rewrite H2, H1.
    by destruct (pt !! k).
  - pose proof (merge_keys_sources ty pt tp1 sp1 k) as H2.
    pose proof (merge_keys_sources ty pt tp sp k) as H1.
    rewrite E2 in H2. rewrite E1 in H1. simpl in *. rewrite H2, H1.
    destruct (pt !! k); [|done]. simpl. by rewrite add_source_idemp.
Qed.

Lemma merged_package_idemp ty pt v :
  merged_package ty pt (merged_package ty pt v) = merged_package ty pt v.
Proof.
  destruct v as [otp [o|]]; unfold merged_package; simpl.
  - rewrite <- surjective_pairing. by rewrite merge_keys_idemp.
  - do 2 f_equal. apply map_eq. intros k. rewrite !lookup_union.
    by destruct (pt !! k), (default ∅ otp !! k).
Qed.

(** * The merger, one locale at a time *)

Lemma merge_layer_locale_hit ty st loc data :
  locale_view loc (merge_layer_locale ty st loc data) =
    merged_locale ty data (locale_view loc st).
Proof.
  unfold locale_view, merge_layer_locale, merged_locale. simpl.
  by rewrite !setdefault_total, !lookup_insert_eq.
Qed.

Lemma merge_layer_locale_frame ty st loc' data loc :
  loc' ≠ loc →
  locale_view loc (merge_layer_locale ty st loc' data) = locale_view loc st.
Proof.
  intros Hne. unfold locale_view, merge_layer_locale. simpl.
  rewrite !lookup_insert_ne by done. rewrite !setdefault_lookup.
  by rewrite !decide_False by done.
Qed.

Lemma merge_layer_view ty layer st loc :
  locale_view loc (for_items layer (merge_layer_locale ty) st) =
    match layer !! loc with
    | Some data => merged_locale ty data (locale_view loc st)
    | None => locale_view loc st
    end.
Proof.
  apply (for_items_view (merge_layer_locale ty) (locale_view loc) loc
           (merged_locale ty)).
  - intros. by apply merge_layer_locale_frame.
  - intros. apply merge_layer_locale_hit.
Qed.

Lemma get2_empty {A} p k : get2 (∅ : gmap string (gmap string A)) p k = None.
Proof. unfold get2. by rewrite lookup_empty. Qed.

Lemma get3_default {A} (d : gmap string (gmap string (gmap string A)))
    loc p k :
  get2 (default ∅ (d !! loc)) p k = get3 d loc p k.
Proof.
  unfold get3. destruct (d !! loc); simpl; [done|]. apply get2_empty.
Qed.

(** A layer merged into the accumulated translations, key by key. *)
Lemma merge_layer_get3_target ty layer tbl ts loc p k :
  get3 (for_items layer (merge_layer_locale ty) (tbl, ts)).1 loc p k =
    match get3 layer loc p k with
    | Some v => Some v
    | None => get3 tbl loc p k
    end.
Proof.
  pose proof (merge_layer_view ty layer (tbl, ts) loc) as Hv.
  apply (f_equal fst) in Hv. unfold locale_view in Hv at 1. simpl in Hv.
  unfold get3 at 1 2. rewrite Hv. destruct (layer !! loc) as [data|]; simpl.
  - rewrite merge_js_translations_get2_target. by rewrite get3_default.
  - done.
Qed.

Lemma merge_layer_get3_sources ty layer tbl ts loc p k :
  get3 (for_items layer (merge_layer_locale ty) (tbl, ts)).2 loc p k =
    match get3 layer loc p k with
    | Some _ => Some (add_source ty (default [] (get3 ts loc p k)))
    | None => get3 ts loc p k
    end.
Proof.
  pose proof (merge_layer_view ty layer (tbl, ts) loc) as Hv.
  apply (f_equal snd) in Hv. unfold locale_view in Hv at 1. simpl in Hv.
  unfold get3 at 1 2. rewrite Hv. destruct (layer !! loc) as [data|]; simpl.
  - destruct (merge_js_translations_tracked_some (default ∅ (tbl !! loc))
                data (default ∅ (ts !! loc)) ty) as [m' Hm'].
    rewrite Hm'. simpl.
    rewrite (merge_js_translations_get2_sources _ _ _ _ _ _ _ Hm').
    by rewrite get3_default.
  - done.
Qed.

(** * What the collector guarantees *)

Lemma seed_package_sources_lookup pt sp k :
  seed_package_sources pt sp !! k =
    match pt !! k with
    | Some _ => Some (default [] (sp !! k) ++ ["package"])%list
    | None => sp !! k
    end.
Proof.
  unfold seed_package_sources.
  apply (for_items_view _ (fun sp : gmap string SourceList => sp !! k) k
           (fun _ o => Some (default [] o ++ ["package"])%list)).
  - intros s k' a Hne. rewrite lookup_insert_ne by done.
    rewrite setdefault_lookup. by rewrite decide_False.
  - intros s a. by rewrite lookup_insert_eq, setdefault_total.
Qed.

Lemma get3_setdefault {A} (d : gmap string (gmap string (gmap string A)))
    loc loc' p k :
  get3 (setdefault loc ∅ d) loc' p k = get3 d loc' p k.
Proof.
  unfold get3. rewrite setdefault_lookup. case_decide; [subst|done].
  destruct (d !! loc'); simpl; [done|]. apply get2_empty.
Qed.

Lemma get_package_setdefault {A} (d : gmap string (gmap string A))
    loc loc' p :
  get_package (setdefault loc ∅ d) loc' p = get_package d loc' p.
Proof.
  unfold get_package. rewrite setdefault_lookup. case_decide; [subst|done].
  destruct (d !! loc'); simpl; [done|]. by rewrite lookup_empty.
Qed.

Lemma get2_setdefault {A} (d : gmap string (gmap string A)) p p' k :
  get2 (setdefault p ∅ d) p' k = get2 d p' k.
Proof.
  unfold get2. rewrite setdefault_lookup. case_decide; [subst|done].
  destruct (d !! p'); simpl; [done|]. by rewrite lookup_empty.
Qed.

Lemma add_package_locale_seeded inst package_name locale po_path st :
  seeded st →
  seeded (_add_package_locale_translations inst package_name locale po_path
            st).
Proof.
  intros Hst loc p k l. unfold _add_package_locale_translations.
  destruct (pofile inst po_path) as [po_file|]; simpl.
  2:{ rewrite get3_setdefault, get_package_setdefault. apply Hst. }
  set (m := package_name_to_module_name package_name).
  set (pt := po_to_i18next_json po_file package_name).
  rewrite !setdefault_total.
  unfold get3 at 1. unfold get_package at 1. rewrite !lookup_insert.
  destruct (decide (locale = loc)) as [->|Hloc]; simpl.
  2:{ rewrite !setdefault_lookup. rewrite !decide_False by done.
      apply (Hst loc p k l). }
  assert (∀ q, get2 (setdefault m ∅ (default ∅ (st.2 !! loc))) q k
               = get3 st.2 loc q k) as Hold.
  { intros q. rewrite get2_setdefault. apply get3_default. }
  destruct (decide (m = p)) as [<-|Hm].
  - rewrite lookup_insert_eq. case_bool_decide as Hfirst.
    + unfold get2. rewrite lookup_insert_eq. simpl.
      rewrite seed_package_sources_lookup.
      assert (default ∅ (default ∅ (st.2 !! loc) !! m) !! k = None) as Hnone.
      { destruct (get3 st.2 loc m k) as [l'|] eqn:E.
        - destruct (Hst loc m k l' E) as [_ [x Hx]].
          unfold get_package in Hx. destruct (st.1 !! loc); simpl in *.
          + congruence.
          + done.
        - unfold get3, get2 in E.
          destruct (st.2 !! loc) as [sl|]; simpl in *.
          + destruct (sl !! m); simpl in *; [done|]. by rewrite lookup_empty.
          + by rewrite !lookup_empty. }
      rewrite Hnone. destruct (pt !! k); [|done].
      intros [= <-]. eauto.
    + rewrite Hold. intros Hl. destruct (Hst loc m k l Hl) as [-> _]. eauto.
  - rewrite lookup_insert_ne by done.
    assert (get2 (if bool_decide (default ∅ (st.1 !! loc) !! m = None)
                  then <[m := seed_package_sources pt
                                (default ∅ (default ∅ (st.2 !! loc) !! m))]>
                         (setdefault m ∅ (default ∅ (st.2 !! loc)))
                  else setdefault m ∅ (default ∅ (st.2 !! loc))) p k
            = get3 st.2 loc p k) as ->.
    { case_bool_decide; [|apply Hold].
      unfold get2 at 1. rewrite lookup_insert_ne by done. apply Hold. }
    intros Hl. destruct (Hst loc p k l Hl) as [-> Hsome]. split; [done|].
    unfold get_package in Hsome. by destruct (st.1 !! loc).
Qed.

(** Every list of sources that the collector returns is [["package"]], with
    no duplicate, whatever the number of files found for a package and a
    locale. *)
Lemma collector_sources_are_package inst packages loc p k l :
  get3 (collect_js_package_translations inst packages).2 loc p k = Some l →
  l = ["package"].
Proof.
  intros Hl.
  assert (seeded (collect_js_package_translations inst packages)) as Hseeded.
  { unfold collect_js_package_translations.
    apply (foldl_invariant _ seeded).
    - intros loc' p' k' l'. unfold get3. simpl. by rewrite lookup_empty.
    - intros st package_name _ Hst.
      destruct (find_package_path inst package_name); [|done].
      apply (foldl_invariant _ seeded); [done|].
      intros st' lp _ Hst'. by apply add_package_locale_seeded. }
  by destruct (Hseeded loc p k l Hl).
Qed.

(** * The claims about the layered merger *)

Lemma occurs_before_add_source a b l :
  a ∈ l → b ∉ l → occurs_before a b (add_source b l).
Proof.
  intros Ha Hb. unfold add_source. rewrite bool_decide_eq_false_2 by done.
  apply list_elem_of_split in Ha as (l1 & l2 & ->).
  exists l1, l2, []. by rewrite <- app_assoc.
Qed.

(** Precedence of the instance layer, for any accumulated state: a key
    with a value and a list of sources that carries ["package"] and not
    ["instance"], and that the instance layer holds too. *)
Lemma merge_layers_precedence
    (tbl : TranslationsByLang) (ts : TranslationSources)
    (bundle instance : TranslationsByLang)
    (loc p k v_inst : string) (prov : SourceList) :
  get3 ts loc p k = Some prov →
  "package" ∈ prov →
  "instance" ∉ prov →
  get3 instance loc p k = Some v_inst →
  let s1 := merge_bundle_js_layers tbl ts bundle in
  let s2 := merge_instance_js_layers s1.1 s1.2 instance in
  get3 s2.1 loc p k = Some v_inst ∧
  ∃ final,
    get3 s2.2 loc p k = Some final ∧
    final = (match get3 bundle loc p k with
             | Some _ => add_source "bundle" prov
             | None => prov
             end ++ ["instance"])%list ∧
    "package" ∈ final ∧ "instance" ∈ final ∧
    occurs_before "package" "instance" final.
Proof.
  intros Hprov Hin Hnotin Hinst s1 s2.
  subst s1 s2. unfold merge_instance_js_layers, merge_bundle_js_layers.
  destruct (for_items bundle (merge_layer_locale "bundle") (tbl, ts))
    as [tbl1 ts1] eqn:E1. simpl.
  pose proof (merge_layer_get3_sources "bundle" bundle tbl ts loc p k) as Hs1.
  rewrite E1 in Hs1. simpl in Hs1. rewrite Hprov in Hs1. simpl in Hs1.
  set (mid := match get3 bundle loc p k with
              | Some _ => add_source "bundle" prov
              | None => prov
              end).
  assert (get3 ts1 loc p k = Some mid) as Hmid.
  { rewrite Hs1. unfold mid. by destruct (get3 bundle loc p k). }
  assert ("package" ∈ mid ∧ "instance" ∉ mid) as [Hp Hi].
  { unfold mid. destruct (get3 bundle loc p k); [|done].
    unfold add_source. case_bool_decide; [done|]. split; [set_solver|].
    intros [?|Hx%list_elem_of_singleton]%elem_of_app; [done|discriminate]. }
  split.
  - rewrite merge_layer_get3_target. by rewrite Hinst.
  - exists (add_source "instance" mid).
    rewrite merge_layer_get3_sources, Hinst, Hmid. simpl.
    split; [done|]. split.
    { unfold add_source. by rewrite bool_decide_eq_false_2. }
    split; [|split].
    + unfold add_source. rewrite bool_decide_eq_false_2 by done. set_solver.
    + apply add_source_elem.
    + by apply occurs_before_add_source.
Qed.

(** For the keys that the collector seeded, the instance layer overrides
    the package layer as intended. The package layer is what the collector
    returns. For every locale and every key with a collected value and
    with the list of sources that the collector seeded for it, and that
    the instance layer holds too, after the bundle layer and then the
    instance layer are merged, the merged value of the key is the instance
    layer's value, and the list of sources of the key is
    [["package"; "instance"]], or [["package"; "bundle"; "instance"]] when
    the bundle layer holds the key too. *)
Lemma instance_overrides_seeded_key
    (inst : Installation) (packages : list string)
    (bundle instance : TranslationsByLang)
    (loc p k v_pkg v_inst : string) :
  let package_layer := collect_js_package_translations inst packages in
  get3 package_layer.1 loc p k = Some v_pkg →
  is_Some (get3 package_layer.2 loc p k) →
  get3 instance loc p k = Some v_inst →
  let s1 := merge_bundle_js_layers package_layer.1 package_layer.2 bundle in
  let s2 := merge_instance_js_layers s1.1 s1.2 instance in
  let final := match get3 bundle loc p k with
               | Some _ => ["package"; "bundle"; "instance"]
               | None => ["package"; "instance"]
               end in
  get3 s2.1 loc p k = Some v_inst ∧
  get3 s2.2 loc p k = Some final ∧
  "package" ∈ final ∧ "instance" ∈ final ∧
  occurs_before "package" "instance" final.
Proof.
  intros package_layer Hpkg [prov Hprov] Hinst s1 s2 final.
  assert (prov = ["package"]) as ->
    by apply (collector_sources_are_package inst packages loc p k prov Hprov).
  destruct (merge_layers_precedence package_layer.1 package_layer.2 bundle
              instance loc p k v_inst ["package"] Hprov)
    as (Hvalue & final' & Hsources & Hfinal & Hp & Hi & Hbefore);
    [apply list_elem_of_here| |done|].
  { intros Hin%list_elem_of_singleton. discriminate Hin. }
  assert (final' = final) as ->.
  { rewrite Hfinal. unfold final. by destruct (get3 bundle loc p k). }
  done.
Qed.

(** C1 (the code at the failing input). The package of [TwoLocations] has
    its translations for the locale [de] in two of the locations that are
    searched, and the instance layer overrides the message ["Upload"] of
    the second file. The key ["invenio_app:Upload"] is in the package layer
    and in the instance layer, with different values. After the bundle
    layer (empty here) and the instance layer are merged, the merged value
    is the instance layer's, as the claim says, but the list of sources of
    the key is [["instance"]]: ["package"] is not in it. The collector
    seeded no list for the key (the defect shown for C5), and the merger
    starts the list of a key without one at the empty list. The key
    ["invenio_app:Save"] of the first file, which the collector seeded,
    gets the list the claim describes when the instance layer overrides
    it. *)
Lemma C1_override_without_package_source :
  let package_layer :=
    collect_js_package_translations TwoLocations.installation
      ["invenio-app"] in
  let bundle : TranslationsByLang := ∅ in
  let instance : TranslationsByLang :=
    {[ "de" := {[ "invenio_app" :=
                    {[ "invenio_app:Upload" := "Hochladen!" ]} ]} ]} in
  let s1 := merge_bundle_js_layers package_layer.1 package_layer.2 bundle in
  let s2 := merge_instance_js_layers s1.1 s1.2 instance in
  get3 package_layer.1 "de" "invenio_app" "invenio_app:Upload"
    = Some "Hochladen" ∧
  get3 instance "de" "invenio_app" "invenio_app:Upload"
    = Some "Hochladen!" ∧
  get3 s2.1 "de" "invenio_app" "invenio_app:Upload" = Some "Hochladen!" ∧
  get3 s2.2 "de" "invenio_app" "invenio_app:Upload" = Some ["instance"] ∧
  ¬ (∃ final,
       get3 s2.2 "de" "invenio_app" "invenio_app:Upload" = Some final ∧
       "package" ∈ final).
Proof.
  assert (∀ s2 : TranslationsByLang * TranslationSources,
            get3 s2.2 "de" "invenio_app" "invenio_app:Upload"
              = Some ["instance"] →
            ¬ (∃ final,
                 get3 s2.2 "de" "invenio_app" "invenio_app:Upload"
                   = Some final ∧ "package" ∈ final)) as Hnot.
  { intros s2 Hs2 (final & Hfinal & Hin). rewrite Hs2 in Hfinal.
    injection Hfinal as <-.
    apply list_elem_of_singleton in Hin. discriminate Hin. }
  intros package_layer bundle instance s1 s2.
  assert (get3 s2.2 "de" "invenio_app" "invenio_app:Upload"
            = Some ["instance"]) as Hsources by (vm_compute; done).
  split; [vm_compute; done|]. split; [vm_compute; done|].
  split; [vm_compute; done|]. split; [done|]. by apply Hnot.
Qed.

(** The assignment that line 302 skips would not change the dictionary:
    as a function on dictionaries the loop body is the assignment. *)
Lemma holds_equal_insert_id (tp : LocaleMessages) (k v : string) :
  holds_equal tp k v = true → <[k := v]> tp = tp.
Proof.
  unfold holds_equal. intros Hk%bool_decide_eq_true. by apply insert_id.
Qed.

Lemma merge_key_as_assignment ty (tp : LocaleMessages)
    (sp : gmap string SourceList) k v :
  (merge_key ty (tp, sp) k v).1 = <[k := v]> tp.
Proof.
  unfold merge_key. simpl.
  destruct (holds_equal tp k v) eqn:Heq; simpl; [|done].
  symmetry. by apply holds_equal_insert_id.
Qed.

Lemma for_items_ext {K A S} `{Countable K} (d : gmap K A)
    (body body' : S → K → A → S) (s : S) :
  (∀ s k v, body s k v = body' s k v) →
  for_items d body s = for_items d body' s.
Proof.
  intros Hbody. unfold for_items. revert s.
  induction (map_to_list d) as [|kv items IH]; intros s; [done|].
  simpl. by rewrite Hbody, IH.
Qed.

Lemma merge_key_overwrites ty st k v :
  merge_key ty st k v = merge_key_overwriting ty st k v.
Proof.
  unfold merge_key, merge_key_overwriting.
  destruct (holds_equal st.1 k v) eqn:Heq; [|done].
  by rewrite (holds_equal_insert_id _ _ _ Heq).
Qed.

(** C2. When a source layer is merged into a target with source tracking,
    the merger overwrites, for every package and every key of the source
    layer, the target's value with the source's value, also when the target
    already holds an identical value: the merger returns what the loops
    with the assignment made for every key return, for the target and for
    the lists of sources; for a target that holds the key with the same
    value the body of the loop returns the target with the value assigned;
    and after the merge the target's value for the key is the source
    layer's value. The test of lines 301-302, which skips the assignment
    when the target holds the key with an equal value, skips an assignment
    that would leave the dictionary as it is. *)
Theorem C2_overwrite_is_unconditional
    (t src : PackageTranslations) (m : PackageSources) (ty p k v : string)
    (pt : LocaleMessages) :
  src !! p = Some pt →
  pt !! k = Some v →
  merge_js_translations t src (Some m) ty =
    merge_js_translations_overwriting t src (Some m) ty ∧
  (∀ (tp : LocaleMessages) (sp : gmap string SourceList),
     (merge_key ty (tp, sp) k v).1 = <[k := v]> tp) ∧
  get2 (merge_js_translations t src (Some m) ty).1 p k = Some v.
Proof.
  intros Hp Hk. split; [|split].
  - unfold merge_js_translations, merge_js_translations_overwriting.
    apply for_items_ext. intros st p' pt'.
    unfold merge_package, merge_package_overwriting.
    destruct st.2 as [sources_metadata|]; [|done].
    by rewrite (for_items_ext pt' _ _ _ (merge_key_overwrites ty)).
  - intros tp sp. apply merge_key_as_assignment.
  - rewrite merge_js_translations_get2_target. unfold get2.
    rewrite Hp. simpl. by rewrite Hk.
Qed.

(** The target holds ["a"] with the value of the source layer, and ["b"]
    with another value. *)
Lemma C2_overwrite_is_unconditional_witness :
  let t : PackageTranslations := {[ "p" := {[ "a" := "x"; "b" := "y" ]} ]} in
  let src : PackageTranslations := {[ "p" := {[ "a" := "x"; "b" := "z" ]} ]} in
  merge_js_translations t src (Some ∅) "bundle" =
    merge_js_translations_overwriting t src (Some ∅) "bundle" ∧
  (∀ (tp : LocaleMessages) (sp : gmap string SourceList),
     (merge_key "bundle" (tp, sp) "a" "x").1 = <["a" := "x"]> tp) ∧
  get2 (merge_js_translations t src (Some ∅) "bundle").1 "p" "a" = Some "x".
Proof.
  intros t src.
  apply (C2_overwrite_is_unconditional t src ∅ "bundle" "p" "a" "x"
           {[ "a" := "x"; "b" := "z" ]}).
  - reflexivity.
  - reflexivity.
Defined.

(** C3. Merging the same layer (same source, same layer name) a second time
    changes neither the target translations nor the lists of sources: the
    second merge returns what the first one returned, so no list gets the
    layer's name twice. It holds with and without source tracking. *)
Theorem C3_remerge_idempotent
    (t src : PackageTranslations) (sm : option PackageSources) (ty : string) :
  let once := merge_js_translations t src sm ty in
  merge_js_translations once.1 src once.2 ty = once.
Proof.
  intros once. apply package_view_ext. intros p.
  rewrite merge_js_translations_view. rewrite <- surjective_pairing.
  unfold once. rewrite merge_js_translations_view.
  destruct (src !! p); [|done]. apply merged_package_idemp.
Qed.

(** C4 (as stated, refuted). "Appended if and only if the name is not the
    last entry of the list" fails: with the list [["package"; "bundle"]]
    for a key and the layer name ["package"], the list ends in a different
    name, and the merger leaves it as it is instead of appending. *)
Lemma C4_not_appended_when_listed_earlier :
  ¬ (∀ (t src : PackageTranslations) (m m' : PackageSources)
       (ty p k v : string) (l : SourceList),
       get2 src p k = Some v →
       get2 m p k = Some l →
       (merge_js_translations t src (Some m) ty).2 = Some m' →
       (get2 m' p k = Some (l ++ [ty])%list ↔ last l ≠ Some ty)).
Proof.
  intros Hall.
  set (t := {[ "p" := {[ "k" := "v" ]} ]} : PackageTranslations).
  set (src := {[ "p" := {[ "k" := "w" ]} ]} : PackageTranslations).
  set (m := {[ "p" := {[ "k" := ["package"; "bundle"] ]} ]} : PackageSources).
  destruct (merge_js_translations_tracked_some t src m "package")
    as [m' Hm'].
  specialize (Hall t src m m' "package" "p" "k" "w" ["package"; "bundle"]
                eq_refl eq_refl Hm') as [_ Hback].
  assert (get2 m' "p" "k" = Some ["package"; "bundle"]) as Hcode.
  { rewrite (merge_js_translations_get2_sources _ _ _ _ _ _ _ Hm').
    reflexivity. }
  rewrite Hcode in Hback. by specialize (Hback ltac:(discriminate)).
Qed.

(** C4 (amended). When a source layer is merged into a target with source
    tracking, then for every key of the source layer the layer's name is
    appended to the key's list of sources if and only if the name does not
    occur anywhere in that list (a key without a list gets the one-element
    list); a list in which the name occurs, last or earlier, is left as it
    is. *)
Theorem C4_appended_iff_absent
    (t src : PackageTranslations) (m m' : PackageSources)
    (ty p k v : string) :
  get2 src p k = Some v →
  (merge_js_translations t src (Some m) ty).2 = Some m' →
  let l := default [] (get2 m p k) in
  (ty ∉ l → get2 m' p k = Some (l ++ [ty])%list) ∧
  (ty ∈ l → get2 m' p k = Some l).
Proof.
  intros Hsrc Hm' l.
  rewrite (merge_js_translations_get2_sources _ _ _ _ _ _ _ Hm'), Hsrc.
  fold l. unfold add_source. split; intros Hl.
  - by rewrite bool_decide_eq_false_2.
  - by rewrite bool_decide_eq_true_2.
Qed.

Lemma C4_appended_iff_absent_witness :
  let t : PackageTranslations := {[ "p" := {[ "k" := "v" ]} ]} in
  let src : PackageTranslations := {[ "p" := {[ "k" := "w" ]} ]} in
  let m : PackageSources := {[ "p" := {[ "k" := ["package"; "bundle"] ]} ]} in
  let m' : PackageSources :=
    {[ "p" := {[ "k" := ["package"; "bundle"; "instance"] ]} ]} in
  let l := default [] (get2 m "p" "k") in
  ("instance" ∉ l → get2 m' "p" "k" = Some (l ++ ["instance"])%list) ∧
  ("instance" ∈ l → get2 m' "p" "k" = Some l).
Proof.
  intros t src m m'.
  apply (C4_appended_iff_absent t src m m' "instance" "p" "k" "w").
  - reflexivity.
  - vm_compute. reflexivity.
Defined.

(** * The format converter *)

Lemma append_cons a s t : String a s +:+ t = String a (s +:+ t).
Proof. reflexivity. Qed.

Lemma append_empty_r s : s +:+ "" = s.
Proof. induction s as [|a s IH]; [done|]. by rewrite append_cons, IH. Qed.

Lemma append_assoc s t u : (s +:+ t) +:+ u = s +:+ t +:+ u.
Proof. induction s as [|a s IH]; [done|]. by rewrite !append_cons, IH. Qed.

Lemma append_suffix_ne s t : t ≠ "" → s ≠ s +:+ t.
Proof.
  intros Ht Heq. rewrite <- (append_empty_r s) in Heq at 1.
  apply (inj (String.append s)) in Heq. by symmetry in Heq.
Qed.

Lemma truthy_true s : s ≠ "" → PyStr.truthy s = true.
Proof. by destruct s. Qed.

Lemma opt_or_else_form o id : PyStr.opt_or_else o id = form_or_msgid o id.
Proof. destruct o as [[|a s]|]; done. Qed.

Lemma assign_all_app r items1 items2 :
  assign_all r (items1 ++ items2) = assign_all (assign_all r items1) items2.
Proof. apply foldl_app. Qed.

Lemma assign_all_keeps r items k :
  is_Some (r !! k) → is_Some (assign_all r items !! k).
Proof.
  revert r. induction items as [|[k0 v0] items IH]; intros r Hr; [done|].
  simpl. apply IH. rewrite lookup_insert. case_decide; eauto.
Qed.

Lemma assign_all_has r items k v :
  (k, v) ∈ items → is_Some (assign_all r items !! k).
Proof.
  revert r. induction items as [|[k0 v0] items IH]; intros r Hin.
  - by apply elem_of_nil in Hin.
  - apply elem_of_cons in Hin as [Heq|Hin]; simpl.
    + simplify_eq. apply assign_all_keeps. rewrite lookup_insert_eq. eauto.
    + by apply IH.
Qed.

(** The converter assigns the concatenation of what the entries emit. *)
Lemma po_to_i18next_json_concat po pkg :
  po_to_i18next_json po pkg =
    assign_all ∅
      (concat (map (entry_items (package_name_to_module_name pkg)) po)).
Proof.
  unfold po_to_i18next_json.
  generalize (∅ : gmap string string) as r.
  induction po as [|e po IH]; intros r; [done|].
  simpl. by rewrite assign_all_app, IH.
Qed.

Lemma po_to_i18next_json_has po pkg e k v :
  e ∈ po →
  (k, v) ∈ entry_items (package_name_to_module_name pkg) e →
  is_Some (po_to_i18next_json po pkg !! k).
Proof.
  intros He Hkv. rewrite po_to_i18next_json_concat.
  apply (assign_all_has _ _ k v). apply list_elem_of_In, in_concat.
  exists (entry_items (package_name_to_module_name pkg) e). split.
  - apply in_map. by apply list_elem_of_In.
  - by apply list_elem_of_In.
Qed.

(** C6. For every entry that is not obsolete and has a non-empty message id
    and non-empty plural forms, the converter emits exactly two keys: the
    namespaced key ["<pkg>:<msgid>"] with the form of index 0 and the key
    ["<pkg>:<msgid>_plural"] with the form of index 1, each form replaced by
    the message id when it is missing or empty, and both values stripped of
    surrounding whitespace. The two keys are different, a file holding only
    this entry converts to the mapping with exactly these two keys, and a
    file holding the entry converts to a mapping that has both keys. *)
Theorem C6_plural_entry_emits_two_keys (package_name : string)
    (entry : POEntry) :
  obsolete entry = false →
  msgid entry ≠ "" →
  msgstr_plural entry ≠ ∅ →
  let pkg := package_name_to_module_name package_name in
  let base := pkg +:+ ":" +:+ msgid entry in
  let plural := base +:+ "_plural" in
  let singular_value :=
    PyStr.strip (form_or_msgid (msgstr_plural entry !! 0%Z) (msgid entry)) in
  let plural_value :=
    PyStr.strip (form_or_msgid (msgstr_plural entry !! 1%Z) (msgid entry)) in
  entry_items pkg entry = [(base, singular_value); (plural, plural_value)] ∧
  base ≠ plural ∧
  po_to_i18next_json [entry] package_name =
    {[ base := singular_value; plural := plural_value ]} ∧
  ∀ po_file : POFile,
    entry ∈ po_file →
    is_Some (po_to_i18next_json po_file package_name !! base) ∧
    is_Some (po_to_i18next_json po_file package_name !! plural).
Proof.
  intros Hobs Hid Hpl pkg base plural singular_value plural_value.
  assert (entry_items pkg entry =
            [(base, singular_value); (plural, plural_value)]) as Hitems.
  { unfold entry_items. rewrite Hobs, (truthy_true _ Hid). simpl.
    rewrite bool_decide_eq_true_2 by done. rewrite !opt_or_else_form.
    unfold plural, base. by rewrite !append_assoc. }
  assert (base ≠ plural) as Hne by by apply append_suffix_ne.
  split; [done|]. split; [done|]. split.
  - unfold po_to_i18next_json. simpl. fold pkg. rewrite Hitems. simpl.
    apply map_eq. intros k. rewrite !lookup_insert.
    repeat case_decide; by simplify_map_eq.
  - intros po_file Hin. split.
    + apply (po_to_i18next_json_has _ _ entry base singular_value Hin).
      fold pkg. rewrite Hitems. set_solver.
    + apply (po_to_i18next_json_has _ _ entry plural plural_value Hin).
      fold pkg. rewrite Hitems. set_solver.
Qed.

Lemma C6_plural_entry_emits_two_keys_witness :
  let entry := mkPOEntry "file" "" {[ 0%Z := " Datei"; 1%Z := "" ]} [] false in
  entry_items "invenio_app" entry =
    [("invenio_app:file", "Datei"); ("invenio_app:file_plural", "file")] ∧
  "invenio_app:file" ≠ "invenio_app:file_plural" ∧
  po_to_i18next_json [entry] "invenio-app" =
    {[ "invenio_app:file" := "Datei"; "invenio_app:file_plural" := "file" ]} ∧
  ∀ po_file : POFile,
    entry ∈ po_file →
    is_Some (po_to_i18next_json po_file "invenio-app" !! "invenio_app:file") ∧
    is_Some (po_to_i18next_json po_file "invenio-app"
               !! "invenio_app:file_plural").
Proof.
  intros entry.
  apply (C6_plural_entry_emits_two_keys "invenio-app" entry).
  - reflexivity.
  - discriminate.
  - apply (bool_decide_unpack _). reflexivity.
Defined.

(** * The validator *)

Lemma not_truthy_empty s : negb (PyStr.truthy s) = bool_decide (s = "").
Proof. by destruct s. Qed.

Lemma not_nonempty_empty (d : gmap Z string) :
  negb (bool_decide (d ≠ ∅)) = bool_decide (d = ∅).
Proof.
  destruct (decide (d = ∅)) as [Hd|Hd].
  - rewrite (bool_decide_eq_true_2 _ Hd).
    by rewrite bool_decide_eq_false_2 by (by intros ?).
  - by rewrite (bool_decide_eq_false_2 _ Hd), (bool_decide_eq_true_2 _ Hd).
Qed.

Lemma validate_entries_buckets po_file issues :
  foldl validate_entry issues po_file =
    Issues.mk
      (Issues.untranslated issues ++ bucket_ids in_untranslated po_file)
      (Issues.fuzzy issues ++ bucket_ids in_fuzzy po_file)
      (Issues.obsolete issues ++ bucket_ids in_obsolete po_file).
Proof.
  revert issues. induction po_file as [|e po IH]; intros [u f o].
  - unfold bucket_ids. simpl. by rewrite !app_nil_r.
  - cbn [foldl]. rewrite IH. unfold bucket_ids. rewrite !filter_cons.
    unfold validate_entry, in_untranslated, in_fuzzy, in_obsolete.
    rewrite not_truthy_empty, not_nonempty_empty.
    destruct (obsolete e), (bool_decide ("fuzzy" ∈ flags e)),
      (bool_decide (msgstr e = "")), (bool_decide (msgstr_plural e = ∅));
      simpl; by rewrite <- ?app_assoc.
Qed.

(** C8. The validator puts every entry into at most one of the buckets
    obsolete, fuzzy, untranslated, tested in that order: the three lists of
    the report hold the message ids of exactly the obsolete entries, of the
    entries that are fuzzy and not obsolete, and of the entries that are
    neither obsolete nor fuzzy and have an empty translated string and no
    plural forms; no entry is in two buckets, an entry in no bucket
    contributes to no list, and the counts are the lengths of the lists. *)
Theorem C8_validator_buckets (po_file : POFile) (package_name locale : string)
    (po_path : Path) :
  let report := validate_po po_file package_name locale po_path in
  let issues := report_issues report in
  Issues.obsolete issues = bucket_ids in_obsolete po_file ∧
  Issues.fuzzy issues = bucket_ids in_fuzzy po_file ∧
  Issues.untranslated issues = bucket_ids in_untranslated po_file ∧
  (∀ e : POEntry,
     (in_obsolete e = true → in_fuzzy e = false ∧ in_untranslated e = false) ∧
     (in_fuzzy e = true → in_untranslated e = false) ∧
     (in_untranslated e = true ↔
        obsolete e = false ∧ ("fuzzy" ∉ flags e) ∧ msgstr e = "" ∧
        msgstr_plural e = ∅)) ∧
  Counts.total (report_counts report) =
    length (filter (fun e => (in_obsolete e || in_fuzzy e
                              || in_untranslated e) = true) po_file) ∧
  (Counts.total (report_counts report) ≤ length po_file)%nat.
Proof.
  intros report issues.
  assert (issues = Issues.mk (bucket_ids in_untranslated po_file)
                     (bucket_ids in_fuzzy po_file)
                     (bucket_ids in_obsolete po_file)) as Hi.
  { unfold issues, report, validate_po. simpl.
    by rewrite validate_entries_buckets. }
  assert (Counts.total (report_counts report) =
            length (filter (fun e => (in_obsolete e || in_fuzzy e
                                      || in_untranslated e) = true) po_file))
    as Hc.
  { change (report_counts report) with (Counts.from_issues issues).
    rewrite Hi. unfold Counts.total, Counts.from_issues, bucket_ids. simpl.
    rewrite !length_fmap. clear. induction po_file as [|e po IH]; [done|].
    rewrite !filter_cons.
    unfold in_untranslated, in_fuzzy, in_obsolete in *.
    destruct (obsolete e), (bool_decide ("fuzzy" ∈ flags e)),
      (bool_decide (msgstr e = "")), (bool_decide (msgstr_plural e = ∅));
      simpl in *; repeat case_decide; try done; simpl; lia. }
  split; [by rewrite Hi|]. split; [by rewrite Hi|]. split; [by rewrite Hi|].
  split; [|split; [exact Hc | rewrite Hc; apply length_filter]].
  intros e. unfold in_obsolete, in_fuzzy, in_untranslated.
  destruct (obsolete e); simpl.
  { split; [done|]. split; [done|]. split; [done|].
    intros Hall. by destruct Hall as [Ho Hrest]. }
  destruct (decide ("fuzzy" ∈ flags e)) as [Hf|Hf].
  { rewrite (bool_decide_eq_true_2 _ Hf). simpl.
    split; [done|]. split; [done|]. split; [done|].
    intros Hall. by destruct Hall as (Ho & Hnf & Hrest). }
  rewrite (bool_decide_eq_false_2 _ Hf). simpl.
  split; [done|]. split; [done|].
  rewrite andb_true_iff, !bool_decide_eq_true. tauto.
Qed.

(** * The conversion used by fetch-from-transifex *)

Lemma map_entry_raises_index obj entry e :
  map_entry_to_i18next_style obj entry = inl e →
  e = KeyError 0 ∨ e = KeyError 1.
Proof.
  unfold map_entry_to_i18next_style, getitem, bind, raise, ret.
  case_bool_decide; [|done].
  destruct (msgstr_plural entry !! 0%Z); [|by intros [= <-]; left].
  destruct (msgstr_plural entry !! 1%Z); [done|by intros [= <-]; right].
Qed.

Lemma map_entry_raises obj entry :
  msgstr_plural entry ≠ ∅ →
  msgstr_plural entry !! 0%Z = None ∨ msgstr_plural entry !! 1%Z = None →
  ∃ e, map_entry_to_i18next_style obj entry = inl e.
Proof.
  intros Hne Hmiss.
  unfold map_entry_to_i18next_style, getitem, bind, raise, ret.
  rewrite bool_decide_eq_true_2 by done.
  destruct (msgstr_plural entry !! 0%Z); [|eauto].
  destruct Hmiss as [?|Hmiss]; [done|]. rewrite Hmiss. eauto.
Qed.

Lemma map_entries_raises obj po entry :
  entry ∈ po →
  msgstr_plural entry ≠ ∅ →
  msgstr_plural entry !! 0%Z = None ∨ msgstr_plural entry !! 1%Z = None →
  ∃ i, (i = 0%Z ∨ i = 1%Z) ∧
       map_entries_to_i18next_style obj po = raise (KeyError i).
Proof.
  intros Hin Hne Hmiss. revert obj.
  induction po as [|e0 po IH]; intros obj; [by apply elem_of_nil in Hin|].
  cbn [map_entries_to_i18next_style]. unfold bind at 1.
  destruct (map_entry_to_i18next_style obj e0) as [e|obj'] eqn:E0.
  - apply map_entry_raises_index in E0 as [->| ->]; eauto.
  - apply elem_of_cons in Hin as [->|Hin]; [|by apply IH].
    destruct (map_entry_raises obj e0 Hne Hmiss) as [e He]. congruence.
Qed.

(** C10. The conversion used by fetch-from-transifex is partial where the
    converter is total. For a file with an entry whose plural forms are not
    empty but lack index 0 or index 1, [map_to_i18next_style] raises
    [KeyError] (for index 0 or 1) and returns no mapping. The converter
    returns a mapping for the same entry (taken alone, when it is not
    obsolete and has a message id): it has the two namespaced keys, and the
    value of a missing form is the stripped message id. *)
Theorem C10_transifex_conversion_partial (po_file : POFile) (entry : POEntry)
    (package_name : string) :
  entry ∈ po_file →
  msgstr_plural entry ≠ ∅ →
  msgstr_plural entry !! 0%Z = None ∨ msgstr_plural entry !! 1%Z = None →
  (∃ i, (i = 0%Z ∨ i = 1%Z) ∧
        map_to_i18next_style po_file = raise (KeyError i)) ∧
  (obsolete entry = false → msgid entry ≠ "" →
   let pkg := package_name_to_module_name package_name in
   let converted := po_to_i18next_json [entry] package_name in
   is_Some (converted !! (pkg +:+ ":" +:+ msgid entry)) ∧
   is_Some (converted !! (pkg +:+ ":" +:+ msgid entry +:+ "_plural")) ∧
   (msgstr_plural entry !! 0%Z = None →
    converted !! (pkg +:+ ":" +:+ msgid entry) =
      Some (PyStr.strip (msgid entry))) ∧
   (msgstr_plural entry !! 1%Z = None →
    converted !! (pkg +:+ ":" +:+ msgid entry +:+ "_plural") =
      Some (PyStr.strip (msgid entry)))).
Proof.
  intros Hin Hne Hmiss. split.
  - by apply map_entries_raises with entry.
  - intros Hobs Hid pkg converted.
    assert (pkg +:+ ":" +:+ msgid entry
            ≠ pkg +:+ ":" +:+ msgid entry +:+ "_plural") as Hkeys.
    { rewrite <- !append_assoc. by apply append_suffix_ne. }
    assert (converted =
              <[pkg +:+ ":" +:+ msgid entry +:+ "_plural" :=
                  PyStr.strip (form_or_msgid (msgstr_plural entry !! 1%Z)
                                 (msgid entry))]>
              (<[pkg +:+ ":" +:+ msgid entry :=
                   PyStr.strip (form_or_msgid (msgstr_plural entry !! 0%Z)
                                  (msgid entry))]> ∅)) as ->.
    { unfold converted, po_to_i18next_json. cbn [foldl]. fold pkg.
      unfold entry_items. rewrite Hobs, (truthy_true _ Hid). simpl.
      rewrite bool_decide_eq_true_2 by done.
      by rewrite !opt_or_else_form. }
    split; [|split; [|split]].
    + rewrite lookup_insert_ne by done. rewrite lookup_insert_eq. eauto.
    + rewrite lookup_insert_eq. eauto.
    + intros ->. rewrite lookup_insert_ne by done.
      by rewrite lookup_insert_eq.
    + intros ->. by rewrite lookup_insert_eq.
Qed.

Lemma C10_transifex_conversion_partial_witness :
  let entry := mkPOEntry "file" "" {[ 0%Z := "fairu" ]} [] false in
  let po_file := [mkPOEntry "Save" "hozon" ∅ [] false; entry] in
  (∃ i, (i = 0%Z ∨ i = 1%Z) ∧
        map_to_i18next_style po_file = raise (KeyError i)) ∧
  (obsolete entry = false → msgid entry ≠ "" →
   let pkg := package_name_to_module_name "invenio-app" in
   let converted := po_to_i18next_json [entry] "invenio-app" in
   is_Some (converted !! (pkg +:+ ":" +:+ msgid entry)) ∧
   is_Some (converted !! (pkg +:+ ":" +:+ msgid entry +:+ "_plural")) ∧
   (msgstr_plural entry !! 0%Z = None →
    converted !! (pkg +:+ ":" +:+ msgid entry) =
      Some (PyStr.strip (msgid entry))) ∧
   (msgstr_plural entry !! 1%Z = None →
    converted !! (pkg +:+ ":" +:+ msgid entry +:+ "_plural") =
      Some (PyStr.strip (msgid entry)))).
Proof.
  intros entry po_file.
  apply (C10_transifex_conversion_partial po_file entry "invenio-app").
  - apply (bool_decide_unpack _). reflexivity.
  - apply (bool_decide_unpack _). reflexivity.
  - right. reflexivity.
Defined.

(** * What the converter preserves *)

Lemma assign_all_nodup r items :
  NoDup items.*1 → assign_all r items = list_to_map items ∪ r.
Proof.
  revert r. induction items as [|[k v] items IH]; intros r Hnd.
  - simpl. by rewrite (left_id_L ∅ (∪)).
  - rewrite fmap_cons in Hnd. apply NoDup_cons in Hnd as [Hk Hnd].
    change (assign_all r ((k, v) :: items))
      with (assign_all (<[k := v]> r) items).
    rewrite IH by done. apply map_eq. intros i.
    change (list_to_map ((k, v) :: items))
      with (<[k := v]> (list_to_map items : gmap string string)).
    rewrite !lookup_union, !lookup_insert.
    case_decide; simplify_eq; [|done].
    rewrite (not_elem_of_list_to_map_1 _ _ Hk). by destruct (r !! i).
Qed.

Lemma entry_items_kept pkg e :
  entry_items pkg e =
    if is_kept e then
      if has_plural_forms e
      then [ (key_of pkg e, normalized_form 0 e);
             (plural_key_of pkg e, normalized_form 1 e) ]
      else [ (key_of pkg e, normalized_msgstr e) ]
    else [].
Proof.
  unfold entry_items, is_kept, has_plural_forms, normalized_form,
    normalized_msgstr, key_of, plural_key_of.
  destruct (obsolete e); [done|]. rewrite not_truthy_empty. simpl.
  destruct (bool_decide (msgid e = "")); [done|]. simpl.
  change (PyStr.or_else (msgstr e) (msgid e))
    with (PyStr.opt_or_else (Some (msgstr e)) (msgid e)).
  by rewrite !opt_or_else_form.
Qed.

Lemma entry_items_keys pkg e : (entry_items pkg e).*1 = keys_of pkg e.
Proof.
  rewrite entry_items_kept. unfold keys_of.
  by destruct (is_kept e), (has_plural_forms e).
Qed.

Lemma emitted_keys pkg (po : POFile) :
  (concat (map (entry_items pkg) po)).*1 = concat (keys_of pkg <$> po).
Proof.
  induction po as [|e po IH]; [done|].
  simpl. by rewrite fmap_app, IH, entry_items_keys.
Qed.

Lemma keys_of_kept pkg e k : k ∈ keys_of pkg e → is_kept e = true.
Proof. unfold keys_of. destruct (is_kept e); [done|]. by intros ?%elem_of_nil. Qed.

Lemma emitted_length pkg (po : POFile) :
  length (concat (map (entry_items pkg) po)) =
    (length (filter (fun e => has_plural_forms e = false)
               (filter (fun e => is_kept e = true) po))
     + 2 * length (filter (fun e => has_plural_forms e = true)
                     (filter (fun e => is_kept e = true) po)))%nat.
Proof.
  induction po as [|e po IH]; [done|].
  simpl. rewrite length_app, IH, entry_items_kept, filter_cons.
  destruct (is_kept e) eqn:Hkept.
  - rewrite decide_True by done. rewrite !filter_cons.
    destruct (has_plural_forms e) eqn:Hplural.
    + rewrite decide_False by done. rewrite decide_True by done.
      simpl. lia.
    + rewrite decide_True by done. rewrite decide_False by done.
      simpl. lia.
  - rewrite decide_False by done. simpl. lia.
Qed.

Lemma NoDup_concat_position {A} (ls : list (list A)) i j l1 l2 x :
  NoDup (concat ls) →
  ls !! i = Some l1 → ls !! j = Some l2 → x ∈ l1 → x ∈ l2 → i = j.
Proof.
  revert i j. induction ls as [|l ls IH]; intros i j Hnd Hi Hj H1 H2;
    [done|].
  simpl in Hnd. apply NoDup_app in Hnd as (_ & Hdisj & Hnd).
  assert (∀ n l', ls !! n = Some l' → x ∈ l' → x ∈ concat ls) as Hin.
  { intros n l' Hn Hx. apply list_elem_of_In, in_concat. exists l'.
    split; apply list_elem_of_In; [|done].
    by apply list_elem_of_lookup_2 in Hn. }
  destruct i as [|i], j as [|j]; simpl in Hi, Hj; simplify_eq; [done|..].
  - exfalso. apply (Hdisj x H1). by apply (Hin j l2).
  - exfalso. apply (Hdisj x H2). by apply (Hin i l1).
  - f_equal. by apply IH.
Qed.

(** C7 (as stated, refuted). Neither half of the claim holds of the
    converter. An entry cannot be reconstructed from the mapping, also in
    a file without any collision of keys: the file of the one entry
    ["Save"] without translation and the file of the one entry ["Save"]
    translated as [" Save "] convert to the same mapping, since an empty
    translation is replaced by the message id and values are stripped.
    And two distinct entries can collapse into one key: in the file of
    [plural_item] and [item_plural_message] both entries emit the key
    ["p:item_plural"], and the mapping holds the value of the second. *)
Lemma C7_entries_not_preserved :
  ¬ (∀ (po1 po2 : POFile) (package_name : string),
       po_to_i18next_json po1 package_name =
         po_to_i18next_json po2 package_name →
       filter (fun e => is_kept e = true) po1 =
         filter (fun e => is_kept e = true) po2)
  ∧
  ¬ (∀ (po_file : POFile) (package_name : string) (i j : nat)
       (e1 e2 : POEntry) (k : string),
       po_file !! i = Some e1 → po_file !! j = Some e2 → i ≠ j →
       is_kept e1 = true → is_kept e2 = true →
       k ∈ (entry_items (package_name_to_module_name package_name) e1).*1 →
       k ∉ (entry_items (package_name_to_module_name package_name) e2).*1)
  ∧
  po_to_i18next_json [plural_item; item_plural_message] "p"
    !! "p:item_plural" = Some "Mehrzahl".
Proof.
  split; [|split].
  - intros Hall.
    specialize (Hall [mkPOEntry "Save" "" ∅ [] false]
                  [mkPOEntry "Save" " Save " ∅ [] false] "p").
    assert (filter (fun e => is_kept e = true)
              [mkPOEntry "Save" "" ∅ [] false] =
            filter (fun e => is_kept e = true)
              [mkPOEntry "Save" " Save " ∅ [] false]) as Heq
      by (apply Hall; reflexivity).
    vm_compute in Heq. discriminate Heq.
  - intros Hall.
    apply (Hall [plural_item; item_plural_message] "p" 0%nat 1%nat
             plural_item item_plural_message "p:item_plural");
      try reflexivity; apply (bool_decide_unpack _); reflexivity.
  - reflexivity.
Qed.

(** C7 (amended). For every parsed translation file in which no key is
    emitted twice, the flat mapping holds every entry that is not obsolete
    and has a message id exactly once, in normalised form: under the key
    of an entry without plural forms the stripped translated string (the
    stripped message id when the translated string is empty); under the
    key of an entry with plural forms the stripped form 0 and under the key
    followed by ["_plural"] the stripped form 1 (the message id for a
    missing or empty form); no key that is not a key of such an entry; as
    many keys as there are entries without plural forms plus twice those
    with; and no key shared by entries at two places of the file. The
    entry itself is not recovered: the mapping tells neither an empty
    translation from one equal to the message id, nor the whitespace
    around a translation. *)
Theorem C7_entries_preserved_without_collisions (po_file : POFile)
    (package_name : string) :
  let pkg := package_name_to_module_name package_name in
  let converted := po_to_i18next_json po_file package_name in
  let kept := filter (fun e => is_kept e = true) po_file in
  NoDup (concat (keys_of pkg <$> po_file)) →
  (∀ e : POEntry,
     e ∈ kept → has_plural_forms e = false →
     converted !! key_of pkg e = Some (normalized_msgstr e)) ∧
  (∀ e : POEntry,
     e ∈ kept → has_plural_forms e = true →
     converted !! key_of pkg e = Some (normalized_form 0 e) ∧
     converted !! plural_key_of pkg e = Some (normalized_form 1 e)) ∧
  (∀ k : string,
     is_Some (converted !! k) ↔ ∃ e, e ∈ kept ∧ k ∈ keys_of pkg e) ∧
  size converted =
    (length (filter (fun e => has_plural_forms e = false) kept)
     + 2 * length (filter (fun e => has_plural_forms e = true) kept))%nat ∧
  (∀ (i j : nat) (e1 e2 : POEntry) (k : string),
     po_file !! i = Some e1 → po_file !! j = Some e2 →
     k ∈ keys_of pkg e1 → k ∈ keys_of pkg e2 → i = j).
Proof.
  intros pkg converted kept Hkeys.
  set (emitted := concat (map (entry_items pkg) po_file)).
  assert (NoDup emitted.*1) as Hnd
    by (unfold emitted; by rewrite emitted_keys).
  assert (converted = list_to_map emitted) as Hconv.
  { unfold converted. rewrite po_to_i18next_json_concat. fold pkg emitted.
    rewrite assign_all_nodup by done. by rewrite (right_id_L ∅ (∪)). }
  assert (∀ (e : POEntry) (k v : string),
            e ∈ po_file → (k, v) ∈ entry_items pkg e →
            converted !! k = Some v) as Hback.
  { intros e k v He Hkv. rewrite Hconv.
    apply elem_of_list_to_map; [done|].
    apply list_elem_of_In, in_concat. exists (entry_items pkg e). split.
    - apply in_map. by apply list_elem_of_In.
    - by apply list_elem_of_In. }
  split; [|split; [|split; [|split]]].
  - intros e [Hkept He]%list_elem_of_filter Hplural.
    apply (Hback e); [done|].
    rewrite entry_items_kept, Hkept, Hplural. apply list_elem_of_here.
  - intros e [Hkept He]%list_elem_of_filter Hplural.
    split; (apply (Hback e); [done|]);
      rewrite entry_items_kept, Hkept, Hplural.
    + apply list_elem_of_here.
    + apply list_elem_of_further, list_elem_of_here.
  - intros k. rewrite Hconv. split.
    + intros [v Hv]. apply elem_of_list_to_map in Hv; [|done].
      assert (k ∈ emitted.*1) as Hk
        by (apply list_elem_of_fmap; by exists (k, v)).
      unfold emitted in Hk. rewrite emitted_keys in Hk.
      apply list_elem_of_In, in_concat in Hk as (l & Hl & Hk).
      apply list_elem_of_In, list_elem_of_fmap in Hl as (e & -> & He).
      apply list_elem_of_In in Hk. exists e. split; [|done].
      apply list_elem_of_filter. split; [|done]. by apply (keys_of_kept pkg e k).
    + intros (e & [_ He]%list_elem_of_filter & Hk).
      destruct (list_to_map emitted !! k) as [v|] eqn:Hv; [eauto|].
      exfalso. apply not_elem_of_list_to_map in Hv. apply Hv.
      unfold emitted. rewrite emitted_keys.
      apply list_elem_of_In, in_concat. exists (keys_of pkg e). split.
      * apply list_elem_of_In, list_elem_of_fmap. by exists e.
      * by apply list_elem_of_In.
  - unfold kept. rewrite <- (emitted_length pkg po_file). fold emitted.
    rewrite Hconv, <- length_map_to_list.
    by rewrite (map_to_list_to_map emitted Hnd).
  - intros i j e1 e2 k Hi Hj H1 H2.
    apply (NoDup_concat_position (keys_of pkg <$> po_file) i j
             (keys_of pkg e1) (keys_of pkg e2) k); [done| | |done..].
    + by rewrite list_lookup_fmap, Hi.
    + by rewrite list_lookup_fmap, Hj.
Qed.

Lemma C7_entries_preserved_without_collisions_witness :
  let po_file := [plural_item; mkPOEntry "Save" " Speichern " ∅ [] false;
                  mkPOEntry "Old" "Alt" ∅ [] true] in
  let pkg := package_name_to_module_name "invenio-app" in
  let converted := po_to_i18next_json po_file "invenio-app" in
  let kept := filter (fun e => is_kept e = true) po_file in
  (∀ e : POEntry,
     e ∈ kept → has_plural_forms e = false →
     converted !! key_of pkg e = Some (normalized_msgstr e)) ∧
  (∀ e : POEntry,
     e ∈ kept → has_plural_forms e = true →
     converted !! key_of pkg e = Some (normalized_form 0 e) ∧
     converted !! plural_key_of pkg e = Some (normalized_form 1 e)) ∧
  (∀ k : string,
     is_Some (converted !! k) ↔ ∃ e, e ∈ kept ∧ k ∈ keys_of pkg e) ∧
  size converted =
    (length (filter (fun e => has_plural_forms e = false) kept)
     + 2 * length (filter (fun e => has_plural_forms e = true) kept))%nat ∧
  (∀ (i j : nat) (e1 e2 : POEntry) (k : string),
     po_file !! i = Some e1 → po_file !! j = Some e2 →
     k ∈ keys_of pkg e1 → k ∈ keys_of pkg e2 → i = j).
Proof.
  intros po_file pkg converted kept.
  apply (C7_entries_preserved_without_collisions po_file "invenio-app").
  apply (bool_decide_unpack _). reflexivity.
Defined.

(** * The collector *)

(** C5 (the code at the failing input). The locale [de] of the package is
    found twice. The second file replaces the collected translations of the
    package, and the sources are those seeded for the first file: the key
    ["invenio_app:Upload"] is in the returned translations and has no list
    of sources, and the key ["invenio_app:Save"] has the list
    [["package"]] and is not in the translations any more. *)
Lemma C5_second_file_key_without_source :
  let r := collect_js_package_translations TwoLocations.installation
             ["invenio-app"] in
  find_js_po_files TwoLocations.installation TwoLocations.root "invenio-app"
    = [("de", TwoLocations.lc_file); ("de", TwoLocations.assets_file)] ∧
  get3 r.1 "de" "invenio_app" "invenio_app:Upload" = Some "Hochladen" ∧
  get3 r.2 "de" "invenio_app" "invenio_app:Upload" = None ∧
  get3 r.1 "de" "invenio_app" "invenio_app:Save" = None ∧
  get3 r.2 "de" "invenio_app" "invenio_app:Save" = Some ["package"].
Proof. vm_compute. done. Qed.

(** * The distributor *)

Section Distributor_facts.
Context {JSON : Type}.
Variable exceptional_package_names : gmap string string.
Variable entry_points : list (string * Path).

Local Abbreviation targets :=
  (calculate_target_packages exceptional_package_names entry_points).
Local Abbreviation record :=
  (record_of exceptional_package_names entry_points).
Local Abbreviation distribute :=
  (distribute_js_translations_from_directory (JSON := JSON)
     exceptional_package_names entry_points).

Lemma distribute_package_results language
    (st : list DistributionResult * FileSystem JSON) package_name tr :
  (distribute_package language (targets language) st package_name tr).1 =
    if PyStr.startswith "_" package_name then st.1
    else (st.1 ++ [record language package_name])%list.
Proof.
  unfold distribute_package, record_of.
  destruct (PyStr.startswith "_" package_name); [done|].
  by destruct (targets language !! package_name).
Qed.

Lemma distribute_package_files language
    (st : list DistributionResult * FileSystem JSON) package_name tr :
  files (distribute_package language (targets language) st
           package_name tr).2 =
    if PyStr.startswith "_" package_name then files st.2
    else match targets language !! package_name with
         | Some target_file => <[target_file := tr]> (files st.2)
         | None => files st.2
         end.
Proof.
  unfold distribute_package.
  destruct (PyStr.startswith "_" package_name); [done|].
  by destruct (targets language !! package_name).
Qed.

(** Results are only appended to. *)
Lemma distribute_package_keeps language st package_name (tr : JSON) r :
  r ∈ st.1 →
  r ∈ (distribute_package language (targets language) st
         package_name tr).1.
Proof.
  intros Hr. rewrite distribute_package_results.
  destruct (PyStr.startswith "_" package_name); [done|]. set_solver.
Qed.

Lemma distribute_file_keeps language (unified : gmap string JSON) st r :
  r ∈ st.1 →
  r ∈ (for_items unified
         (distribute_package language (targets language)) st).1.
Proof.
  intros Hr. unfold for_items.
  apply (foldl_invariant _ (fun st => r ∈ st.1)); [done|].
  intros s [q tr] _ Hs. by apply distribute_package_keeps.
Qed.

(** Every key of a file that is not metadata gets its record. *)
Lemma distribute_records source_files fs language
    (unified : gmap string JSON) package_name tr :
  (language, unified) ∈ source_files →
  unified !! package_name = Some tr →
  PyStr.startswith "_" package_name = false →
  record language package_name ∈ (distribute source_files fs).1.
Proof.
  intros Hfile Hpkg Hname. unfold distribute_js_translations_from_directory.
  apply (foldl_reaches _ (fun st => record language package_name ∈ st.1)
           _ _ (language, unified)); [done| |].
  - intros st. simpl. unfold for_items.
    apply (foldl_reaches _
             (fun st => record language package_name ∈ st.1)
             _ _ (package_name, tr)).
    + by apply elem_of_map_to_list.
    + intros s. simpl. rewrite distribute_package_results, Hname.
      set_solver.
    + intros s [q tr'] _ Hs. by apply distribute_package_keeps.
  - intros st [lang uni] _ Hst. by apply distribute_file_keeps.
Qed.

(** Every record is the record of its package and language. *)
Lemma distribute_results_are_records source_files fs r :
  r ∈ (distribute source_files fs).1 →
  r = record r.1.1.2 r.1.1.1.
Proof.
  unfold distribute_js_translations_from_directory.
  revert r.
  apply (foldl_invariant _
           (fun st => ∀ r, r ∈ st.1 → r = record r.1.1.2 r.1.1.1)).
  { intros r Hr. by apply elem_of_nil in Hr. }
  intros st [lang uni] _ Hst. simpl. unfold for_items.
  apply (foldl_invariant _
           (fun st => ∀ r, r ∈ st.1 → r = record r.1.1.2 r.1.1.1));
    [done|].
  intros s [q tr] _ Hs r. simpl. rewrite distribute_package_results.
  destruct (PyStr.startswith "_" q); [apply Hs|].
  intros [Hr|Hr%list_elem_of_singleton]%elem_of_app; [by apply Hs|].
  by subst r.
Qed.

(** A file whose content changed is the target of a package of the
    input. *)
Lemma distribute_files_changed source_files fs path :
  files (distribute source_files fs).2 !! path ≠ files fs !! path →
  ∃ language (unified : gmap string JSON) package_name tr,
    (language, unified) ∈ source_files ∧
    unified !! package_name = Some tr ∧
    PyStr.startswith "_" package_name = false ∧
    targets language !! package_name = Some path.
Proof.
  unfold distribute_js_translations_from_directory.
  set (I := fun st : list DistributionResult * FileSystem JSON =>
              files st.2 !! path ≠ files fs !! path →
              ∃ language (unified : gmap string JSON) package_name tr,
                (language, unified) ∈ source_files ∧
                unified !! package_name = Some tr ∧
                PyStr.startswith "_" package_name = false ∧
                targets language !! package_name = Some path).
  apply (foldl_invariant _ I); [by intros ?|].
  intros st [lang uni] Hfile Hst. simpl. unfold for_items.
  apply (foldl_invariant _ I); [done|].
  intros s [q tr] Hq%elem_of_map_to_list Hs. unfold I. simpl.
  rewrite distribute_package_files.
  destruct (PyStr.startswith "_" q) eqn:Hname; [apply Hs|].
  destruct (targets lang !! q) as [target_file|] eqn:Ht; [|apply Hs].
  destruct (decide (target_file = path)) as [->|Hne].
  - intros _. by exists lang, uni, q, tr.
  - rewrite lookup_insert_ne by done. apply Hs.
Qed.

(** C9. A package name of an input file (a key that does not start with
    the underscore of metadata keys) without a target in the registry
    gets the skip record [(package, language, None, True)] and no record
    of a write; no file is written for it, as every file whose content
    changes is the target of a package of the input that has one; and
    processing continues, as every other package name of the input gets
    its record too. *)
Theorem C9_unknown_package_skipped
    (source_files : list (string * gmap string JSON))
    (fs : FileSystem JSON) (language : string)
    (unified : gmap string JSON) (package_name : string) (tr : JSON) :
  (language, unified) ∈ source_files →
  unified !! package_name = Some tr →
  PyStr.startswith "_" package_name = false →
  targets language !! package_name = None →
  let r := distribute source_files fs in
  (package_name, language, None, true) ∈ r.1 ∧
  (∀ target_file skipped,
     (package_name, language, Some target_file, skipped) ∉ r.1) ∧
  (∀ path,
     files r.2 !! path ≠ files fs !! path →
     ∃ language' (unified' : gmap string JSON) package_name' tr',
       (language', unified') ∈ source_files ∧
       unified' !! package_name' = Some tr' ∧
       targets language' !! package_name' = Some path ∧
       (language', package_name') ≠ (language, package_name)) ∧
  (∀ language' (unified' : gmap string JSON) package_name' tr',
     (language', unified') ∈ source_files →
     unified' !! package_name' = Some tr' →
     PyStr.startswith "_" package_name' = false →
     ∃ target skipped,
       (package_name', language', target, skipped) ∈ r.1 ∧
       target = targets language' !! package_name' ∧
       skipped = bool_decide (target = None)).
Proof.
  intros Hfile Hpkg Hname Htarget r. split; [|split; [|split]].
  - pose proof (distribute_records source_files fs language unified
                  package_name tr Hfile Hpkg Hname) as Hrec.
    unfold record_of in Hrec. rewrite Htarget in Hrec. apply Hrec.
  - intros target_file skipped Hin.
    apply distribute_results_are_records in Hin. unfold record_of in Hin.
    simpl in Hin. rewrite Htarget in Hin. discriminate Hin.
  - intros path Hchanged.
    destruct (distribute_files_changed source_files fs path Hchanged)
      as (language' & unified' & package_name' & tr' & H1 & H2 & _ & H4).
    exists language', unified', package_name', tr'.
    split; [done|]. split; [done|]. split; [done|].
    intros [= -> ->]. congruence.
  - intros language' unified' package_name' tr' H1 H2 H3.
    exists (targets language' !! package_name'),
      (bool_decide (targets language' !! package_name' = None)).
    split; [|done].
    apply (distribute_records source_files fs language' unified'
             package_name' tr' H1 H2 H3).
Qed.

End Distributor_facts.

Lemma unknown_pkg_one_skip_no_file :
  distribute_js_translations_from_directory ∅ [] unknown_pkg_input
    (mkFileSystem ∅ ∅) =
  ([("unknown_pkg", "de", None, true)], mkFileSystem ∅ ∅).
Proof. reflexivity. Qed.

Lemma C9_unknown_package_skipped_witness :
  let fs := mkFileSystem ∅ ∅ in
  let r := distribute_js_translations_from_directory ∅ [] unknown_pkg_input
             fs in
  ("unknown_pkg", "de", None, true) ∈ r.1 ∧
  (∀ target_file skipped,
     ("unknown_pkg", "de", Some target_file, skipped) ∉ r.1) ∧
  (∀ path,
     files r.2 !! path ≠ files fs !! path →
     ∃ language' (unified' : gmap string (gmap string string))
       package_name' tr',
       (language', unified') ∈ unknown_pkg_input ∧
       unified' !! package_name' = Some tr' ∧
       calculate_target_packages ∅ [] language' !! package_name'
         = Some path ∧
       (language', package_name') ≠ ("de", "unknown_pkg")) ∧
  (∀ language' (unified' : gmap string (gmap string string))
     package_name' tr',
     (language', unified') ∈ unknown_pkg_input →
     unified' !! package_name' = Some tr' →
     PyStr.startswith "_" package_name' = false →
     ∃ target skipped,
       (package_name', language', target, skipped) ∈ r.1 ∧
       target = calculate_target_packages ∅ [] language' !! package_name' ∧
       skipped = bool_decide (target = None)).
Proof.
  intros fs.
  apply (C9_unknown_package_skipped ∅ [] unknown_pkg_input fs "de"
           {[ "unknown_pkg" := {[ "A" := "B" ]} ]} "unknown_pkg"
           {[ "A" := "B" ]}).
  - apply list_elem_of_here.
  - reflexivity.
  - reflexivity.
  - reflexivity.
Defined.

(** * More about the format converter *)

Lemma lstrip_no_leading s :
  match PyStr.lstrip s with
  | EmptyString => True
  | String c _ => PyStr.isspace c = false
  end.
Proof.
  induction s as [|c s IH]; [done|]. simpl.
  destruct (PyStr.isspace c) eqn:Ec; [done|]. by rewrite Ec.
Qed.

Lemma lstrip_id s :
  match s with
  | EmptyString => True
  | String c _ => PyStr.isspace c = false
  end →
  PyStr.lstrip s = s.
Proof. destruct s as [|c s]; [done|]. simpl. by intros ->. Qed.

Lemma rstrip_keeps_head s :
  match s with
  | EmptyString => True
  | String c _ => PyStr.isspace c = false
  end →
  match PyStr.rstrip s with
  | EmptyString => True
  | String c _ => PyStr.isspace c = false
  end.
Proof.
  destruct s as [|c s]; [done|]. simpl. intros Hc.
  destruct (PyStr.rstrip s); by rewrite ?Hc.
Qed.

Lemma rstrip_idemp s : PyStr.rstrip (PyStr.rstrip s) = PyStr.rstrip s.
Proof.
  induction s as [|c s IH]; [done|]. simpl.
  destruct (PyStr.rstrip s) as [|d r] eqn:Er.
  - destruct (PyStr.isspace c) eqn:Ec; [done|]. simpl. by rewrite Ec.
  - simpl in *. by rewrite IH.
Qed.

Lemma strip_idemp s : PyStr.strip (PyStr.strip s) = PyStr.strip s.
Proof.
  unfold PyStr.strip.
  rewrite (lstrip_id (PyStr.rstrip (PyStr.lstrip s))).
  - apply rstrip_idemp.
  - apply rstrip_keeps_head, lstrip_no_leading.
Qed.

(** The last character of a stripped string is not whitespace. *)
Lemma rstrip_no_trailing s c r :
  PyStr.rstrip s = r +:+ String c "" → PyStr.isspace c = false.
Proof.
  revert r. induction s as [|d s IH]; intros r.
  - by destruct r.
  - simpl. destruct (PyStr.rstrip s) as [|e t] eqn:Er.
    + destruct (PyStr.isspace d) eqn:Ed; [by destruct r|].
      destruct r as [|x [|y r]]; [by intros [= <-]|done|done].
    + destruct r as [|x r]; [done|]. rewrite append_cons.
      intros [= -> Hr]. by apply (IH r).
Qed.

Lemma assign_all_lookup_inv r items k v :
  assign_all r items !! k = Some v → r !! k = Some v ∨ (k, v) ∈ items.
Proof.
  revert r. induction items as [|[k0 v0] items IH]; intros r; [by left|].
  simpl. intros [Hr|Hin]%IH.
  - rewrite lookup_insert in Hr. case_decide; simplify_eq.
    + right. apply list_elem_of_here.
    + by left.
  - right. by apply list_elem_of_further.
Qed.

(** Every pair of the converted mapping is emitted for an entry of the
    file. *)
Lemma po_to_i18next_json_lookup_inv po pkg k v :
  po_to_i18next_json po pkg !! k = Some v →
  ∃ e, e ∈ po ∧ (k, v) ∈ entry_items (package_name_to_module_name pkg) e.
Proof.
  rewrite po_to_i18next_json_concat.
  intros [Hr|Hin]%assign_all_lookup_inv; [by rewrite lookup_empty in Hr|].
  apply list_elem_of_In, in_concat in Hin as (items & Hitems & Hin).
  apply in_map_iff in Hitems as (e & <- & He).
  exists e. split; by apply list_elem_of_In.
Qed.

(** X1. Every key of the converted mapping is namespaced and stems from an
    entry of the file that is not obsolete and has a message id: the key is
    the module name of the package, a colon and that message id, or the same
    followed by ["_plural"] for an entry with plural forms. *)
Theorem converter_keys_namespaced (po_file : POFile) (package_name : string) :
  map_Forall
    (fun k _ =>
       ∃ e, e ∈ po_file ∧ obsolete e = false ∧ msgid e ≠ "" ∧
            let base :=
              package_name_to_module_name package_name +:+ ":" +:+ msgid e in
            k = base ∨ (msgstr_plural e ≠ ∅ ∧ k = base +:+ "_plural"))
    (po_to_i18next_json po_file package_name).
Proof.
  intros k v (e & He & Hkv)%po_to_i18next_json_lookup_inv.
  exists e. split; [done|]. unfold entry_items in Hkv.
  destruct (obsolete e); [by apply elem_of_nil in Hkv|].
  destruct (msgid e) as [|a id] eqn:Eid; [by apply elem_of_nil in Hkv|].
  split; [done|]. split; [done|]. simpl in Hkv.
  case_bool_decide as Hpl.
  - apply elem_of_cons in Hkv as [[= -> _]|Hkv]; [by left|].
    apply list_elem_of_singleton in Hkv as [= -> _]. right. split; [done|].
    by rewrite !append_assoc.
  - apply list_elem_of_singleton in Hkv as [= -> _]. by left.
Qed.

(** X2. Every value of the converted mapping is stripped: stripping it
    again changes nothing, it does not start with whitespace and it does not
    end with whitespace. *)
Theorem converter_values_stripped (po_file : POFile) (package_name : string) :
  map_Forall
    (fun _ v =>
       PyStr.strip v = v ∧
       (∀ c r, v = String c r → PyStr.isspace c = false) ∧
       (∀ c r, v = r +:+ String c "" → PyStr.isspace c = false))
    (po_to_i18next_json po_file package_name).
Proof.
  intros k v (e & He & Hkv)%po_to_i18next_json_lookup_inv.
  assert (∃ s, v = PyStr.strip s) as [s ->].
  { unfold entry_items in Hkv.
    destruct (obsolete e); [by apply elem_of_nil in Hkv|].
    destruct (negb (PyStr.truthy (msgid e))); [by apply elem_of_nil in Hkv|].
    case_bool_decide.
    - apply elem_of_cons in Hkv as [[= _ ->]|Hkv]; [eauto|].
      apply list_elem_of_singleton in Hkv as [= _ ->]. eauto.
    - apply list_elem_of_singleton in Hkv as [= _ ->]. eauto. }
  split; [apply strip_idemp|]. split.
  - intros c r Hv. pose proof (lstrip_no_leading s) as Hl.
    apply rstrip_keeps_head in Hl. unfold PyStr.strip in Hv.
    by rewrite Hv in Hl.
  - intros c r Hv. by apply (rstrip_no_trailing (PyStr.lstrip s) c r).
Qed.

(** X3. Obsolete entries and entries without message id contribute nothing:
    a file converts to the same mapping as the file without them. *)
Theorem converter_ignores_dead_entries (po_file : POFile)
    (package_name : string) :
  po_to_i18next_json po_file package_name =
    po_to_i18next_json
      (filter (fun e => obsolete e = false ∧ msgid e ≠ "") po_file)
      package_name.
Proof.
  rewrite !po_to_i18next_json_concat. f_equal.
  induction po_file as [|e po IH]; [done|].
  rewrite filter_cons. simpl. case_decide as Hlive.
  - simpl. by rewrite IH.
  - rewrite IH.
    assert (entry_items (package_name_to_module_name package_name) e = [])
      as ->; [|done].
    unfold entry_items. destruct (obsolete e); [done|].
    destruct (msgid e); [done|]. exfalso. by apply Hlive.
Qed.

Lemma assign_all_union r items :
  assign_all r items = assign_all ∅ items ∪ r.
Proof.
  revert r. induction items as [|[k v] items IH]; intros r.
  - simpl. by rewrite (left_id_L ∅ (∪)).
  - change (assign_all r ((k, v) :: items))
      with (assign_all (<[k := v]> r) items).
    change (assign_all ∅ ((k, v) :: items))
      with (assign_all (<[k := v]> (∅ : gmap string string)) items).
    rewrite (IH (<[k := v]> r)), (IH (<[k := v]> ∅)).
    apply map_eq. intros i. rewrite !lookup_union, !lookup_insert.
    rewrite lookup_empty.
    destruct (assign_all ∅ items !! i), (decide (k = i)), (r !! i); done.
Qed.

(** X4. Converting two files one after the other in one pass: the mapping
    of a concatenation is the mapping of the second part laid over the
    mapping of the first, so later entries win. *)
Theorem converter_concatenation (po1 po2 : POFile) (package_name : string) :
  po_to_i18next_json (po1 ++ po2) package_name =
    po_to_i18next_json po2 package_name ∪ po_to_i18next_json po1 package_name.
Proof.
  rewrite !po_to_i18next_json_concat.
  rewrite map_app, concat_app, assign_all_app. apply assign_all_union.
Qed.

(** X5. An entry without plural forms, not obsolete and with a message id,
    contributes the one key ["<pkg>:<msgid>"]: a file of this entry alone
    converts to that key with the stripped translated string, or with the
    stripped message id when the translated string is empty. The choice is
    made before stripping, so a translated string of whitespace only gives
    the empty value and not the message id. *)
Theorem converter_entry_without_plural (package_name : string)
    (entry : POEntry) :
  obsolete entry = false →
  msgid entry ≠ "" →
  msgstr_plural entry = ∅ →
  let key := package_name_to_module_name package_name +:+ ":" +:+ msgid entry in
  po_to_i18next_json [entry] package_name =
    {[ key := PyStr.strip (if decide (msgstr entry = "") then msgid entry
                           else msgstr entry) ]} ∧
  (msgstr entry ≠ "" → PyStr.strip (msgstr entry) = "" →
   po_to_i18next_json [entry] package_name !! key = Some "") ∧
  ∀ po_file : POFile,
    entry ∈ po_file →
    is_Some (po_to_i18next_json po_file package_name !! key).
Proof.
  intros Hobs Hid Hpl key.
  assert (entry_items (package_name_to_module_name package_name) entry =
            [(key, PyStr.strip (if decide (msgstr entry = "")
                                then msgid entry else msgstr entry))])
    as Hitems.
  { unfold entry_items. rewrite Hobs, (truthy_true _ Hid). simpl.
    rewrite bool_decide_eq_false_2 by (by intros ?).
    by destruct (msgstr entry). }
  assert (po_to_i18next_json [entry] package_name =
            {[ key := PyStr.strip (if decide (msgstr entry = "")
                                   then msgid entry else msgstr entry) ]})
    as Hone.
  { unfold po_to_i18next_json. simpl. rewrite Hitems. simpl.
    by rewrite insert_empty. }
  split; [done|]. split.
  - intros Hne Hws. rewrite Hone, lookup_singleton_eq.
    rewrite decide_False by done. by rewrite Hws.
  - intros po_file Hin.
    apply (po_to_i18next_json_has _ _ entry key
             (PyStr.strip (if decide (msgstr entry = "")
                           then msgid entry else msgstr entry)) Hin).
    rewrite Hitems. apply list_elem_of_here.
Qed.

Lemma converter_entry_without_plural_witness :
  let entry := mkPOEntry "Save" "   " ∅ [] false in
  let key := package_name_to_module_name "invenio-app" +:+ ":" +:+ "Save" in
  po_to_i18next_json [entry] "invenio-app" =
    {[ key := PyStr.strip (if decide (msgstr entry = "") then msgid entry
                           else msgstr entry) ]} ∧
  (msgstr entry ≠ "" → PyStr.strip (msgstr entry) = "" →
   po_to_i18next_json [entry] "invenio-app" !! key = Some "") ∧
  ∀ po_file : POFile,
    entry ∈ po_file →
    is_Some (po_to_i18next_json po_file "invenio-app" !! key).
Proof.
  intros entry.
  apply (converter_entry_without_plural "invenio-app" entry).
  - reflexivity.
  - discriminate.
  - reflexivity.
Defined.

(** * Module names and discovery *)

Lemma replace_char_get a b s i :
  String.get i (PyStr.replace_char a b s) =
    (fun c => if Ascii.eqb c a then b else c) <$> String.get i s.
Proof.
  revert i. induction s as [|c s IH]; intros i; [done|].
  destruct i as [|i]; simpl; [done|]. apply IH.
Qed.

Lemma replace_char_id a b s :
  PyStr.replace_char a b s = s ↔
  (a = b ∨ ∀ i, String.get i s ≠ Some a).
Proof.
  destruct (decide (a = b)) as [->|Hab].
  - split; [by left|]. intros _. induction s as [|c s IH]; [done|]. simpl.
    rewrite IH. f_equal. destruct (Ascii.eqb_spec c b); by subst.
  - induction s as [|c s IH]; [split; [by right|done]|]. simpl. split.
    + intros [= Hc Hs]. right. intros [|i]; simpl.
      * intros [= ->]. rewrite Ascii.eqb_refl in Hc. by subst.
      * apply IH in Hs as [?|Hs]; [done|]. apply Hs.
    + intros [?|Hs]; [done|]. f_equal.
      * destruct (Ascii.eqb_spec c a) as [->|]; [|done].
        by specialize (Hs 0%nat).
      * apply IH. right. intros i. apply (Hs (S i)).
Qed.

(** X6. The module name of a package name is the name with every ["-"]
    replaced by ["_"]: it has the length of the name and no ["-"], taking
    the module name of a module name changes nothing, and the name is its
    own module name exactly when it has no ["-"]. So a name with a ["-"]
    and its module name are two package names with one module name. *)
Theorem module_name_normal_form (package_name : string) :
  let m := package_name_to_module_name package_name in
  package_name_to_module_name m = m ∧
  String.length m = String.length package_name ∧
  (∀ i, String.get i m ≠ Some "-"%char) ∧
  (∀ i, String.get i m =
          (fun c => if Ascii.eqb c "-" then "_"%char else c)
            <$> String.get i package_name) ∧
  (m = package_name ↔ ∀ i, String.get i package_name ≠ Some "-"%char).
Proof.
  intros m. unfold m, package_name_to_module_name.
  assert (∀ i, String.get i (PyStr.replace_char "-" "_" package_name)
               ≠ Some "-"%char) as Hnodash.
  { intros i. rewrite replace_char_get.
    destruct (String.get i package_name) as [c|]; [|done]. simpl.
    destruct (Ascii.eqb_spec c "-"); [done|]. by intros [= ->]. }
  split; [|split; [|split; [done|split]]].
  - apply replace_char_id. by right.
  - induction package_name as [|c s IH]; [done|]. simpl. f_equal.
    apply IH. intros i. apply (Hnodash (S i)).
  - apply replace_char_get.
  - rewrite replace_char_id. split; [by intros [?|?]|by right].
Qed.

(** Membership in what the search in translation roots yields, when it
    yields: the path is the relative path of the translation file under a
    directory that is listed in one of the roots that exist, the path
    exists, and the locale is the name of that directory. *)
Lemma find_po_files_in_roots_spec (inst : Installation)
    (translation_roots : list Path) (po_file_path : Path)
    (locale : string) (po_path : Path) :
  (locale, po_path) ∈
    _find_po_files_in_roots inst translation_roots po_file_path
  ↔ ∃ base locale_dir,
      base ∈ translation_roots ∧ path_exists inst base = true ∧
      locale_dir ∈ sorted_iterdir inst base ∧
      is_dir inst locale_dir = true ∧
      po_path = (locale_dir ++ po_file_path)%list ∧
      path_exists inst po_path = true ∧
      locale = path_name locale_dir.
Proof.
  unfold _find_po_files_in_roots.
  rewrite list_elem_of_In, in_flat_map. split.
  - intros (base & Hbase & Hin).
    destruct (path_exists inst base) eqn:Eb; simpl in Hin; [|done].
    apply in_flat_map in Hin as (locale_dir & Hdir & Hin).
    destruct (is_dir inst locale_dir) eqn:Ed; simpl in Hin; [|done].
    destruct (path_exists inst (locale_dir ++ po_file_path)) eqn:Ep;
      simpl in Hin; [|done].
    destruct Hin as [[= <- <-]|[]].
    apply list_elem_of_In in Hbase, Hdir. by exists base, locale_dir.
  - intros (base & locale_dir & Hbase & Eb & Hdir & Ed & -> & Ep & ->).
    exists base. split; [by apply list_elem_of_In|].
    rewrite Eb. simpl. apply in_flat_map. exists locale_dir.
    split; [by apply list_elem_of_In|]. rewrite Ed, Ep. simpl. by left.
Qed.

Lemma app_inj_length_tail {A} (l1 l2 k1 k2 : list A) :
  length k1 = length k2 → (l1 ++ k1 = l2 ++ k2)%list → l1 = l2 ∧ k1 = k2.
Proof. intros Hlen Heq. by apply app_inj_2 in Heq. Qed.

(** X8. On a file system whose directory listings hold children of the
    listed directory, the search for the Python translation files and the
    search for the JavaScript translation files of a package never yield
    the same path. *)
Theorem python_and_js_files_disjoint (inst : Installation)
    (package_root : Path) (package_name locale locale' : string)
    (po_path : Path) :
  (∀ base d, d ∈ sorted_iterdir inst base → ∃ name, d = base // name) →
  (locale, po_path) ∈ find_po_files inst package_root package_name →
  (locale', po_path) ∉ find_js_po_files inst package_root package_name.
Proof.
  intros Hchildren Hpy Hjs. unfold find_po_files in Hpy.
  apply find_po_files_in_roots_spec in Hpy
    as (base & dir & Hbase & _ & Hdir & _ & -> & _ & _).
  apply Hchildren in Hdir as [name ->].
  unfold find_js_po_files in Hjs. apply elem_of_app in Hjs as [Hjs|Hjs];
    apply find_po_files_in_roots_spec in Hjs
      as (base' & dir' & Hbase' & _ & Hdir' & _ & Heq & _ & _);
    apply Hchildren in Hdir' as [name' ->].
  - unfold joinpath in Heq. rewrite <- !app_assoc in Heq.
    apply app_inj_length_tail in Heq as [_ Heq]; [|done]. discriminate Heq.
  - unfold joinpath in Heq. rewrite <- !app_assoc in Heq. simpl in Heq.
    change [name; "LC_MESSAGES"; "messages.po"]
      with ([name; "LC_MESSAGES"] ++ ["messages.po"])%list in Heq.
    change [name'; "messages.po"] with ([name'] ++ ["messages.po"])%list
      in Heq.
    rewrite !app_assoc in Heq.
    apply app_inj_length_tail in Heq as [Heq _]; [|done].
    unfold _get_translation_roots in Hbase.
    apply (f_equal length) in Heq. rewrite !length_app in Heq. simpl in Heq.
    apply elem_of_cons in Hbase as [->|Hbase];
      [|apply list_elem_of_singleton in Hbase as ->];
      (apply elem_of_cons in Hbase' as [->|Hbase'];
       [|apply list_elem_of_singleton in Hbase' as ->]);
      unfold joinpath in Heq; rewrite ?length_app in Heq; simpl in Heq; lia.
Qed.

Lemma python_and_js_files_disjoint_witness :
  ("de", BothKinds.py_file)
    ∉ find_js_po_files BothKinds.installation BothKinds.root "invenio-app".
Proof.
  apply (python_and_js_files_disjoint BothKinds.installation BothKinds.root
           "invenio-app" "de" "de").
  - intros base d. simpl. case_decide as Hb; [|by intros ?%elem_of_nil].
    intros ->%list_elem_of_singleton. subst base. by exists "de".
  - apply (bool_decide_unpack _). reflexivity.
Defined.

(** * More about the conversion used by fetch-from-transifex *)

Lemma map_entry_returns obj entry :
  (msgstr_plural entry ≠ ∅ →
   is_Some (msgstr_plural entry !! 0%Z) ∧
   is_Some (msgstr_plural entry !! 1%Z)) →
  ∃ obj', map_entry_to_i18next_style obj entry = inr obj'.
Proof.
  intros Hok. unfold map_entry_to_i18next_style, getitem, bind, raise, ret.
  case_bool_decide as Hpl; [|eauto].
  destruct (Hok Hpl) as [[s0 ->] [s1 ->]]. eauto.
Qed.

(** X9. [map_to_i18next_style] returns a mapping exactly when every entry
    of the file that has plural forms has the forms of index 0 and of
    index 1; otherwise it raises [KeyError]. Obsolete entries and entries
    without message id count too. *)
Theorem map_to_i18next_style_returns_iff (po_file : POFile) :
  (∃ obj, map_to_i18next_style po_file = inr obj)
  ↔ Forall (fun e => msgstr_plural e ≠ ∅ →
                     is_Some (msgstr_plural e !! 0%Z) ∧
                     is_Some (msgstr_plural e !! 1%Z)) po_file.
Proof.
  unfold map_to_i18next_style. split.
  - intros [obj Hobj]. apply Forall_forall. intros e He Hpl.
    destruct (msgstr_plural e !! 0%Z) as [s0|] eqn:E0;
      [destruct (msgstr_plural e !! 1%Z) as [s1|] eqn:E1; [eauto|]|].
    + destruct (map_entries_raises ∅ po_file e He Hpl (or_intror E1))
        as (i & _ & Hraise). rewrite Hobj in Hraise. discriminate Hraise.
    + destruct (map_entries_raises ∅ po_file e He Hpl (or_introl E0))
        as (i & _ & Hraise). rewrite Hobj in Hraise. discriminate Hraise.
  - generalize (∅ : gmap string string) as obj.
    induction po_file as [|e po IH]; intros obj Hall; [by exists obj|].
    apply Forall_cons in Hall as [He Hall].
    destruct (map_entry_returns obj e He) as [obj' Hobj'].
    cbn [map_entries_to_i18next_style]. rewrite Hobj'. simpl. by apply IH.
Qed.

Lemma map_entries_without_plural obj po :
  Forall (fun e => msgstr_plural e = ∅) po →
  map_entries_to_i18next_style obj po =
    inr (assign_all obj ((fun e => (msgid e, msgstr e)) <$> po)).
Proof.
  revert obj. induction po as [|e po IH]; intros obj Hall; [done|].
  apply Forall_cons in Hall as [He Hall].
  cbn [map_entries_to_i18next_style]. unfold map_entry_to_i18next_style.
  rewrite bool_decide_eq_false_2 by (by intros ?). simpl.
  by rewrite IH.
Qed.

(** X10. On a file without plural forms [map_to_i18next_style] returns the
    mapping from each message id to the translated string of the last entry
    with that id: the keys are the message ids as they are (no package
    prefix), the values are neither stripped nor replaced by the message id
    when empty, and obsolete entries are converted like the others. *)
Theorem map_to_i18next_style_without_plural (po_file : POFile) :
  Forall (fun e => msgstr_plural e = ∅) po_file →
  ∃ obj,
    map_to_i18next_style po_file = inr obj ∧
    (∀ id, obj !! id =
             msgstr <$> last (filter (fun e => msgid e = id) po_file)) ∧
    (∀ e, e ∈ po_file → is_Some (obj !! msgid e)).
Proof.
  intros Hall. unfold map_to_i18next_style.
  rewrite (map_entries_without_plural _ _ Hall). eexists. split; [done|].
  assert (∀ (obj : gmap string string) id,
            assign_all obj ((fun e => (msgid e, msgstr e)) <$> po_file) !! id
            = match last (filter (fun e => msgid e = id) po_file) with
              | Some e => Some (msgstr e)
              | None => obj !! id
              end) as Hlast.
  { clear Hall. induction po_file as [|e po IH] using rev_ind; intros obj id.
    - done.
    - rewrite fmap_app, assign_all_app, filter_app. simpl.
      rewrite lookup_insert. rewrite filter_cons, filter_nil.
      destruct (decide (msgid e = id)) as [Hid|Hid].
      + by rewrite last_snoc.
      + rewrite app_nil_r. apply IH. }
  split.
  - intros id. rewrite Hlast, lookup_empty.
    by destruct (last (filter (fun e => msgid e = id) po_file)).
  - intros e He. rewrite Hlast.
    destruct (last (filter (fun e0 => msgid e0 = msgid e) po_file))
      as [e'|] eqn:El; [eauto|].
    apply last_None in El.
    assert (e ∈ filter (fun e0 => msgid e0 = msgid e) po_file) as Hin
      by by apply list_elem_of_filter.
    rewrite El in Hin. by apply elem_of_nil in Hin.
Qed.

Lemma map_to_i18next_style_without_plural_witness :
  let po_file := [ mkPOEntry "Save" " Speichern" ∅ [] false;
                   mkPOEntry "Upload" "" ∅ [] false;
                   mkPOEntry "Save" "Sichern " ∅ [] true ] in
  ∃ obj,
    map_to_i18next_style po_file = inr obj ∧
    (∀ id, obj !! id =
             msgstr <$> last (filter (fun e => msgid e = id) po_file)) ∧
    (∀ e, e ∈ po_file → is_Some (obj !! msgid e)).
Proof.
  intros po_file.
  apply (map_to_i18next_style_without_plural po_file).
  repeat constructor.
Defined.

(** * More about the layered merger *)

(** X11. The translations after a merge do not depend on source tracking:
    with or without metadata, and whatever the layer name, the target after
    the merge is, package by package, the source's messages laid over the
    target's; packages of the target that the source lacks are kept, and a
    package of the source that the target lacks is created, also when it
    has no message. *)
Theorem merge_target_closed_form (t src : PackageTranslations)
    (sm : option PackageSources) (ty : string) :
  (merge_js_translations t src sm ty).1 =
    union_with (fun pt tp => Some (pt ∪ tp)) src t.
Proof.
  apply map_eq. intros p.
  rewrite merge_js_translations_target, lookup_union_with.
  destruct (src !! p) as [pt|], (t !! p) as [tp|]; simpl; try done.
  by rewrite (right_id_L ∅ (∪)).
Qed.

(** X12. Source tracking is append-only. After a tracked merge the list of
    sources of every key is its list before the merge (the empty list when
    it had none), followed by the layer name or by nothing: no name is ever
    removed or moved, a list without duplicates stays without duplicates,
    and the list of a key that the source layer does not hold is
    untouched. *)
Theorem merge_sources_append_only (t src : PackageTranslations)
    (m : PackageSources) (ty p k : string) :
  ∃ m' added,
    (merge_js_translations t src (Some m) ty).2 = Some m' ∧
    default [] (get2 m' p k) = (default [] (get2 m p k) ++ added)%list ∧
    (added = [] ∨ added = [ty]) ∧
    (NoDup (default [] (get2 m p k)) → NoDup (default [] (get2 m' p k))) ∧
    (get2 src p k = None → get2 m' p k = get2 m p k) ∧
    (is_Some (get2 src p k) → ty ∈ default [] (get2 m' p k)).
Proof.
  destruct (merge_js_translations_tracked_some t src m ty) as [m' Hm'].
  pose proof (merge_js_translations_get2_sources t src m ty m' p k Hm') as Hk.
  destruct (get2 src p k) as [v|] eqn:Esrc.
  - set (old := default [] (get2 m p k)) in *.
    destruct (decide (ty ∈ old)) as [Hin|Hin].
    + exists m', []. rewrite Hk. unfold add_source.
      rewrite (bool_decide_eq_true_2 _ Hin). simpl. rewrite app_nil_r.
      repeat split; try done; auto.
    + exists m', [ty]. rewrite Hk. unfold add_source.
      rewrite (bool_decide_eq_false_2 _ Hin). simpl.
      repeat split; try done; auto.
      * intros Hnd. apply NoDup_app. split; [done|]. split.
        -- intros x Hx ->%list_elem_of_singleton. done.
        -- apply NoDup_singleton.
      * intros _. set_solver.
  - exists m', []. rewrite Hk, app_nil_r. repeat split; try done; auto.
Qed.

(** X13. Merging two layers one after the other into a target gives the
    translations of merging once the second layer merged into the first:
    later layers win whatever the grouping. *)
Theorem merge_associative (t s1 s2 : PackageTranslations)
    (sm sm' sm'' sm''' : option PackageSources) (a b c d : string) :
  (merge_js_translations (merge_js_translations t s1 sm a).1 s2 sm' b).1 =
    (merge_js_translations t (merge_js_translations s1 s2 sm'' c).1 sm''' d).1.
Proof.
  rewrite !merge_target_closed_form. apply map_eq. intros p.
  rewrite !lookup_union_with.
  destruct (s2 !! p) as [x2|], (s1 !! p) as [x1|], (t !! p) as [x|];
    simpl; try done.
  by rewrite (assoc_L (∪)).
Qed.

(** X14. Precedence of the layers is total. For every locale, package and
    key, after the bundle layer and then the instance layer are merged
    into the collected translations, the value of the key is the instance
    layer's if it holds the key, else the bundle layer's if it holds the
    key, else the collected one; a key that no layer holds is absent. *)
Theorem pipeline_value_precedence
    (tbl : TranslationsByLang) (ts : TranslationSources)
    (bundle instance : TranslationsByLang) (loc p k : string) :
  let s1 := merge_bundle_js_layers tbl ts bundle in
  let s2 := merge_instance_js_layers s1.1 s1.2 instance in
  get3 s2.1 loc p k =
    match get3 instance loc p k with
    | Some v => Some v
    | None =>
        match get3 bundle loc p k with
        | Some v => Some v
        | None => get3 tbl loc p k
        end
    end.
Proof.
  intros s1 s2. unfold s2, merge_instance_js_layers.
  rewrite merge_layer_get3_target.
  destruct (get3 instance loc p k); [done|].
  unfold s1, merge_bundle_js_layers. apply merge_layer_get3_target.
Qed.

(** X15. The sources of a key after the whole pipeline, in the order of
    the layers: ["package"] exactly when the collector returned a list of
    sources for the key, then ["bundle"] exactly when the bundle layer
    holds the key, then ["instance"] exactly when the instance layer holds
    it; a key for which none of the three is the case has no list. The
    first condition is about the sources that the collector returned, not
    about its translations: the collector can return a list for a key that
    its translations no longer hold, and none for a key that they hold. *)
Theorem pipeline_sources_by_layer
    (inst : Installation) (packages : list string)
    (bundle instance : TranslationsByLang) (loc p k : string) :
  let c := collect_js_package_translations inst packages in
  let s1 := merge_bundle_js_layers c.1 c.2 bundle in
  let s2 := merge_instance_js_layers s1.1 s1.2 instance in
  let l := ((match get3 c.2 loc p k with Some _ => ["package"] | None => [] end)
            ++ (match get3 bundle loc p k with
                | Some _ => ["bundle"] | None => [] end)
            ++ (match get3 instance loc p k with
                | Some _ => ["instance"] | None => [] end))%list in
  get3 s2.2 loc p k = match l with [] => None | _ => Some l end.
Proof.
  intros c s1 s2 l. unfold s2, merge_instance_js_layers.
  rewrite merge_layer_get3_sources.
  unfold s1, merge_bundle_js_layers.
  rewrite merge_layer_get3_sources. unfold l.
  destruct (get3 c.2 loc p k) as [prov|] eqn:Ec.
  - apply collector_sources_are_package in Ec as ->.
    destruct (get3 bundle loc p k), (get3 instance loc p k); reflexivity.
  - destruct (get3 bundle loc p k), (get3 instance loc p k); reflexivity.
Qed.

Lemma collect_bundle_step (acc : TranslationsByLang) loc' b loc p k :
  get3 (<[loc' := (merge_js_translations (setdefault loc' ∅ acc !!! loc')
                     b None "unknown").1]> (setdefault loc' ∅ acc)) loc p k =
    if decide (loc = loc')
    then match get2 b p k with
         | Some v => Some v
         | None => get3 acc loc p k
         end
    else get3 acc loc p k.
Proof.
  unfold get3 at 1. rewrite lookup_insert. case_decide as Hloc.
  - subst loc'. rewrite decide_True by done. simpl.
    rewrite merge_js_translations_get2_target, setdefault_total.
    by rewrite get3_default.
  - rewrite decide_False by done. fold (get3 (setdefault loc' ∅ acc) loc p k).
    apply get3_setdefault.
Qed.

(** X16. The bundle layer, file by file: a file that could not be read
    contributes nothing, the files of a locale are laid over each other in
    the order in which they are found, so that for every key the last file
    that holds it wins, and files of other locales do not matter. *)
Theorem collect_bundle_later_files_win
    (files : list (string * option PackageTranslations))
    (locale : string) (content : option PackageTranslations)
    (loc p k : string) :
  get3 (collect_bundle_js_translations (files ++ [(locale, content)]))
       loc p k =
    match content with
    | Some bundle_translations =>
        if decide (loc = locale)
        then match get2 bundle_translations p k with
             | Some v => Some v
             | None => get3 (collect_bundle_js_translations files) loc p k
             end
        else get3 (collect_bundle_js_translations files) loc p k
    | None => get3 (collect_bundle_js_translations files) loc p k
    end.
Proof.
  unfold collect_bundle_js_translations. rewrite foldl_app. simpl.
  destruct content as [b|]; [|done]. apply collect_bundle_step.
Qed.

(** * More about the collector *)

Lemma collect_as_jobs inst packages :
  collect_js_package_translations inst packages =
    foldl (fun st j => _add_package_locale_translations inst j.1.1 j.1.2 j.2 st)
          (∅, ∅) (collection_jobs inst packages).
Proof.
  unfold collect_js_package_translations, collection_jobs.
  generalize ((∅, ∅) : TranslationsByLang * TranslationSources) as st.
  induction packages as [|pkg packages IH]; intros st; [done|].
  simpl. rewrite foldl_app, IH. f_equal.
  destruct (find_package_path inst pkg) as [root|]; [|done].
  generalize (find_js_po_files inst root pkg) as files. clear.
  intros files. revert st.
  induction files as [|lp files IH]; intros st; [done|]. simpl. apply IH.
Qed.

(** X17. Whatever files the collector reads, every list of sources that it
    returns is the one-element list [["package"]], never a longer list, and
    it belongs to a package for which translations were collected for that
    locale. *)
Theorem collector_sources_invariant (inst : Installation)
    (packages : list string) (loc p k : string) :
  let r := collect_js_package_translations inst packages in
  match get3 r.2 loc p k with
  | Some l => l = ["package"] ∧ is_Some (get_package r.1 loc p)
  | None => True
  end.
Proof.
  intros r. destruct (get3 r.2 loc p k) as [l|] eqn:El; [|done].
  revert loc p k l El. fold (seeded r). unfold r. rewrite collect_as_jobs.
  apply (foldl_invariant _ seeded).
  - intros loc p k l. unfold get3. simpl. by rewrite lookup_empty.
  - intros st j _ Hst. by apply add_package_locale_seeded.
Qed.

Lemma add_package_locale_keys inst package_name locale po_path st loc :
  let st' := _add_package_locale_translations inst package_name locale
               po_path st in
  (is_Some (st'.1 !! loc) ↔ loc = locale ∨ is_Some (st.1 !! loc)) ∧
  (is_Some (st'.2 !! loc) ↔ loc = locale ∨ is_Some (st.2 !! loc)).
Proof.
  unfold _add_package_locale_translations.
  destruct (pofile inst po_path) as [po_file|]; simpl.
  - rewrite !lookup_insert. destruct (decide (locale = loc)) as [->|Hne].
    + split; (split; [by left|eauto]).
    + rewrite !setdefault_lookup. rewrite !decide_False by done.
      split; (split; [by right|by intros [->|?]]).
  - rewrite !setdefault_lookup. destruct (decide (locale = loc)) as [->|Hne].
    + split; (split; [by left|eauto]).
    + split; (split; [by right|by intros [->|?]]).
Qed.

(** X18. The locales of what the collector returns are the locales of the
    files that the search yields for those of the given packages for which
    the lookup of the module returns a location, whether the files could
    be parsed or not: a locale whose files all fail to parse is still a key
    of the translations and of the sources, and a package for which the
    lookup returns nothing adds none. *)
Theorem collector_locales (inst : Installation) (packages : list string)
    (loc : string) :
  let r := collect_js_package_translations inst packages in
  let found :=
    ∃ package_name package_root po_path,
      package_name ∈ packages ∧
      find_package_path inst package_name = Some package_root ∧
      (loc, po_path) ∈ find_js_po_files inst package_root package_name in
  (is_Some (r.1 !! loc) ↔ found) ∧ (is_Some (r.2 !! loc) ↔ found).
Proof.
  intros r found.
  assert (found ↔ ∃ pkg path, (pkg, loc, path) ∈ collection_jobs inst packages)
    as ->.
  { unfold found, collection_jobs. split.
    - intros (pkg & root & path & Hpkg & Hroot & Hfile).
      exists pkg, path. apply list_elem_of_In, in_flat_map.
      exists pkg. split; [by apply list_elem_of_In|]. rewrite Hroot.
      apply list_elem_of_In, list_elem_of_fmap. by exists (loc, path).
    - intros (pkg & path & Hin).
      apply list_elem_of_In, in_flat_map in Hin as (pkg' & Hpkg & Hin).
      destruct (find_package_path inst pkg') as [root|] eqn:Eroot; [|done].
      apply list_elem_of_In, list_elem_of_fmap in Hin
        as ([loc' path'] & [= -> -> ->] & Hfile).
      exists pkg', root, path'. by apply list_elem_of_In in Hpkg. }
  unfold r. rewrite collect_as_jobs.
  induction (collection_jobs inst packages) as [|[[pkg loc'] path] jobs IH]
    using rev_ind.
  - simpl. rewrite !lookup_empty.
    split; (split; [by intros [? ?]|by intros (? & ? & ?%elem_of_nil)]).
  - rewrite foldl_app. simpl.
    pose proof (add_package_locale_keys inst pkg loc' path
                  (foldl (fun st j => _add_package_locale_translations inst
                                        j.1.1 j.1.2 j.2 st) (∅, ∅) jobs) loc)
      as [H1 H2]. simpl in H1, H2. rewrite H1, H2.
    destruct IH as [IH1 IH2]. rewrite IH1, IH2.
    assert ((∃ pkg0 path0,
               (pkg0, loc, path0) ∈ (jobs ++ [(pkg, loc', path)])%list)
            ↔ loc = loc' ∨ ∃ pkg0 path0, (pkg0, loc, path0) ∈ jobs) as ->; [|done].
    split.
    + intros (pkg0 & path0 & [Hin|Hin%list_elem_of_singleton]%elem_of_app).
      * right. eauto.
      * left. by simplify_eq.
    + intros [->|(pkg0 & path0 & Hin)].
      * exists pkg, path. apply elem_of_app. right. by apply list_elem_of_singleton.
      * exists pkg0, path0. apply elem_of_app. by left.
Qed.

Lemma add_package_locale_translations_of inst package_name locale po_path st
    loc m :
  get_package (_add_package_locale_translations inst package_name locale
                 po_path st).1 loc m =
    match pofile inst po_path with
    | Some po_file =>
        if decide (loc = locale ∧ m = package_name_to_module_name package_name)
        then Some (po_to_i18next_json po_file package_name)
        else get_package st.1 loc m
    | None => get_package st.1 loc m
    end.
Proof.
  unfold _add_package_locale_translations.
  destruct (pofile inst po_path) as [po_file|]; simpl.
  - unfold get_package at 1. rewrite lookup_insert.
    destruct (decide (locale = loc)) as [->|Hne]; simpl.
    + rewrite lookup_insert, setdefault_total.
      destruct (decide (package_name_to_module_name package_name = m))
        as [<-|Hm].
      * by rewrite decide_True.
      * rewrite decide_False by (by intros [_ ?]).
        unfold get_package. by destruct (st.1 !! loc).
    + rewrite decide_False by (by intros [? _]).
      fold (get_package (setdefault locale ∅ st.1) loc m).
      apply get_package_setdefault.
  - apply get_package_setdefault.
Qed.

(** X19. The translations that the collector returns for a locale and a
    module name are the converted content of the last file, among the files
    it reads, that could be parsed and belongs to that locale and to a
    package with that module name: a later file replaces what an earlier
    one gave as a whole (it is not merged with it), and files that fail to
    parse change nothing. *)
Theorem collector_last_file_wins (inst : Installation)
    (packages : list string) (loc m : string) :
  get_package (collect_js_package_translations inst packages).1 loc m =
    last (omap (fun j : string * string * Path =>
                  if decide (loc = j.1.2 ∧
                             m = package_name_to_module_name j.1.1)
                  then (fun po_file => po_to_i18next_json po_file j.1.1)
                         <$> pofile inst j.2
                  else None)
               (collection_jobs inst packages)).
Proof.
  rewrite collect_as_jobs.
  induction (collection_jobs inst packages) as [|[[pkg loc'] path] jobs IH]
    using rev_ind.
  - unfold get_package. simpl. by rewrite lookup_empty.
  - rewrite foldl_app, omap_app. simpl.
    rewrite add_package_locale_translations_of, IH.
    destruct (pofile inst path) as [po_file|]; simpl.
    + case_decide; simpl.
      * by rewrite last_snoc.
      * by rewrite app_nil_r.
    + case_decide; simpl; by rewrite app_nil_r.
Qed.

(** * More about the distributor *)

Lemma NoDup_fst_functional {A B} (l : list (A * B)) x y1 y2 :
  NoDup l.*1 → (x, y1) ∈ l → (x, y2) ∈ l → y1 = y2.
Proof.
  induction l as [|[a b] l IH]; [by intros _ ?%elem_of_nil|].
  rewrite fmap_cons. intros [Ha Hnd]%NoDup_cons.
  intros [Heq1|H1]%elem_of_cons [Heq2|H2]%elem_of_cons.
  - congruence.
  - injection Heq1 as -> ->. exfalso. apply Ha.
    apply list_elem_of_fmap. by exists (a, y2).
  - injection Heq2 as -> ->. exfalso. apply Ha.
    apply list_elem_of_fmap. by exists (a, y1).
  - by apply IH.
Qed.

(** Every target is the path of an entry point, under its registered name
    and the language. *)
Lemma target_shape exceptional_package_names entry_points language name p :
  calculate_target_packages exceptional_package_names entry_points language
    !! name = Some p →
  ∃ ep, ep ∈ entry_points ∧
        name = default ep.1 (exceptional_package_names !! ep.1) ∧
        p = (ep.2 ++ ["translations"; name; "messages"; language;
                       "translations.json"])%list.
Proof.
  unfold calculate_target_packages. revert name p.
  apply (foldl_invariant _
           (fun acc : gmap string Path =>
              ∀ name p, acc !! name = Some p →
                ∃ ep, ep ∈ entry_points ∧
                      name = default ep.1 (exceptional_package_names !! ep.1) ∧
                      p = (ep.2 ++ ["translations"; name; "messages"; language;
                                     "translations.json"])%list)).
  - intros name p. by rewrite lookup_empty.
  - intros acc ep Hep Hacc name p. rewrite lookup_insert.
    case_decide as Hname; [|apply Hacc].
    intros [= <-]. exists ep. split; [done|]. split; [done|].
    unfold joinpath. rewrite <- Hname. by rewrite <- !app_assoc.
Qed.

(** X20. The registry of targets. A name is registered exactly when it is
    the name of an entry point, replaced by its exceptional name when it
    has one; its target is the file [translations.json] under the path of
    an entry point, in [translations/<name>/messages/<language>]; and no
    two pairs of a language and a name have the same target file. *)
Theorem targets_registered_and_distinct
    (exceptional_package_names : gmap string string)
    (entry_points : list (string * Path)) (language name : string) :
  let targets :=
    calculate_target_packages exceptional_package_names entry_points in
  (is_Some (targets language !! name) ↔
   ∃ ep, ep ∈ entry_points ∧
         name = default ep.1 (exceptional_package_names !! ep.1)) ∧
  (∀ p, targets language !! name = Some p →
        (∃ package_path,
           package_path ∈ entry_points.*2 ∧
           p = package_path // "translations" // name // "messages"
                 // language // "translations.json") ∧
        ∀ language' name',
          targets language' !! name' = Some p →
          language' = language ∧ name' = name).
Proof.
  intros targets. split; [split|].
  - intros [p (ep & Hep & Hname & _)%target_shape]. eauto.
  - intros (ep & Hep & ->). unfold targets, calculate_target_packages.
    apply (foldl_reaches _
             (fun acc : gmap string Path =>
                is_Some (acc !! default ep.1
                                  (exceptional_package_names !! ep.1)))
             _ _ ep Hep).
    + intros acc. rewrite lookup_insert_eq. eauto.
    + intros acc ep' _ Hacc. rewrite lookup_insert. case_decide; eauto.
  - intros p Hp. pose proof Hp as (ep & Hep & Hname & ->)%target_shape.
    split.
    + exists ep.2. split.
      * apply list_elem_of_fmap. by exists ep.
      * unfold joinpath. by rewrite <- !app_assoc.
    + intros language' name' (ep' & _ & _ & Heq)%target_shape.
      apply app_inj_length_tail in Heq as [_ Heq]; [|done].
      by injection Heq as -> ->.
Qed.

Section Distributor_more.
Context {JSON : Type}.
Variable exceptional_package_names : gmap string string.
Variable entry_points : list (string * Path).

Local Abbreviation targets :=
  (calculate_target_packages exceptional_package_names entry_points).
Local Abbreviation record :=
  (record_of exceptional_package_names entry_points).
Local Abbreviation distribute :=
  (distribute_js_translations_from_directory (JSON := JSON)
     exceptional_package_names entry_points).

Lemma distribute_results_from_input source_files fs
    (r : DistributionResult) :
  r ∈ (distribute source_files fs).1 →
  ∃ language (unified : gmap string JSON) package_name tr,
    (language, unified) ∈ source_files ∧
    unified !! package_name = Some tr ∧
    PyStr.startswith "_" package_name = false ∧
    r = record language package_name.
Proof.
  unfold distribute_js_translations_from_directory.
  set (I := fun st : list DistributionResult * FileSystem JSON =>
              ∀ r, r ∈ st.1 →
                ∃ language (unified : gmap string JSON) package_name tr,
                  (language, unified) ∈ source_files ∧
                  unified !! package_name = Some tr ∧
                  PyStr.startswith "_" package_name = false ∧
                  r = record language package_name).
  revert r. apply (foldl_invariant _ I).
  { intros r Hr. by apply elem_of_nil in Hr. }
  intros st [lang uni] Hfile Hst. simpl. unfold for_items.
  apply (foldl_invariant _ I); [done|].
  intros s [q tr] Hq%elem_of_map_to_list Hs r. simpl.
  rewrite distribute_package_results.
  destruct (PyStr.startswith "_" q) eqn:Hname; [apply Hs|].
  intros [Hr|Hr%list_elem_of_singleton]%elem_of_app; [by apply Hs|].
  by exists lang, uni, q, tr.
Qed.

(** X21. The report of the distributor holds exactly one kind of record:
    a tuple is in the results if and only if it is the record of a language
    of the input and of a top-level key of that language's file that does
    not start with an underscore, with the registered target and
    [skipped = False], or with no target and [skipped = True]. Keys that
    start with an underscore are never reported. *)
Theorem distribute_results_spec
    (source_files : list (string * gmap string JSON))
    (fs : FileSystem JSON) (r : DistributionResult) :
  r ∈ (distribute source_files fs).1
  ↔ ∃ language (unified : gmap string JSON) package_name,
      (language, unified) ∈ source_files ∧
      is_Some (unified !! package_name) ∧
      PyStr.startswith "_" package_name = false ∧
      r = (package_name, language, targets language !! package_name,
           bool_decide (targets language !! package_name = None)).
Proof.
  split.
  - intros (language & unified & package_name & tr & H1 & H2 & H3 & ->)
      %distribute_results_from_input.
    exists language, unified, package_name. eauto.
  - intros (language & unified & package_name & H1 & [tr H2] & H3 & ->).
    apply (distribute_records exceptional_package_names entry_points
             source_files fs language unified package_name tr H1 H2 H3).
Qed.

(** Directories are only added. *)
Lemma distribute_package_directories language tg st package_name
    (tr : JSON) d :
  d ∈ directories st.2 →
  d ∈ directories (distribute_package language tg st package_name tr).2.
Proof.
  intros Hd. unfold distribute_package.
  destruct (PyStr.startswith "_" package_name); [done|].
  destruct (tg !! package_name); [|done]. simpl. set_solver.
Qed.

(** X22. What the distributor writes. When the languages of the input
    files differ from each other, then after the run the target file of
    every package name of the input that has a target holds exactly the
    value stored under that name in the language's file, and the directory
    of the target file exists. *)
Theorem distribute_writes_translations
    (source_files : list (string * gmap string JSON))
    (fs : FileSystem JSON) (language : string)
    (unified : gmap string JSON) (package_name : string) (tr : JSON)
    (target_file : Path) :
  NoDup source_files.*1 →
  (language, unified) ∈ source_files →
  unified !! package_name = Some tr →
  PyStr.startswith "_" package_name = false →
  targets language !! package_name = Some target_file →
  let r := distribute source_files fs in
  files r.2 !! target_file = Some tr ∧
  path_parent target_file ∈ directories r.2.
Proof.
  intros Hnd Hfile Hpkg Hname Htarget r.
  set (Q := fun st : list DistributionResult * FileSystem JSON =>
              files st.2 !! target_file = Some tr ∧
              path_parent target_file ∈ directories st.2).
  assert (∀ lang' (uni' : gmap string JSON) q tr' s,
            (lang', uni') ∈ source_files → uni' !! q = Some tr' →
            Q s → Q (distribute_package lang' (targets lang') s q tr'))
    as Hkeep.
  { intros lang' uni' q tr' s Hfile' Hq [Hs1 Hs2]. split.
    - rewrite distribute_package_files.
      destruct (PyStr.startswith "_" q); [done|].
      destruct (targets lang' !! q) as [path'|] eqn:Ht; [|done].
      destruct (decide (path' = target_file)) as [->|Hne].
      + destruct (targets_registered_and_distinct exceptional_package_names
                    entry_points language package_name) as [_ Hdistinct].
        destruct (Hdistinct target_file Htarget) as [_ Hinj].
        destruct (Hinj lang' q Ht) as [-> ->].
        rewrite (NoDup_fst_functional _ _ _ _ Hnd Hfile' Hfile) in Hq.
        rewrite lookup_insert_eq. congruence.
      + by rewrite lookup_insert_ne.
    - by apply distribute_package_directories. }
  unfold r, distribute_js_translations_from_directory.
  apply (foldl_reaches _ Q _ _ (language, unified) Hfile).
  - intros st. simpl. unfold for_items.
    apply (foldl_reaches _ Q _ _ (package_name, tr)).
    + by apply elem_of_map_to_list.
    + intros s. simpl. unfold Q, distribute_package.
      rewrite Hname, Htarget. simpl. split; [apply lookup_insert_eq|].
      apply elem_of_union. right. apply elem_of_list_to_set.
      apply list_elem_of_In, in_map_iff.
      exists (length (path_parent target_file)). split.
      * by rewrite firstn_all.
      * apply in_seq.
        apply target_shape in Htarget as (ep & _ & _ & ->).
        unfold path_parent. rewrite removelast_app by done. simpl.
        rewrite length_app. simpl. lia.
    + intros s [q tr'] Hq%elem_of_map_to_list Hs.
      by apply (Hkeep language unified).
  - intros st [lang' uni'] Hfile' Hst. simpl. unfold for_items.
    apply (foldl_invariant _ Q); [done|].
    intros s [q tr'] Hq%elem_of_map_to_list Hs. by apply (Hkeep lang' uni').
Qed.

End Distributor_more.

Lemma distribute_writes_translations_witness :
  let registry := [("invenio_app", ["site-packages"; "invenio_app"])] in
  let source_files : list (string * gmap string LocaleMessages) :=
    [("de", {[ "invenio_app" := {[ "Save" := "Speichern" ]} ]})] in
  let target_file :=
    ["site-packages"; "invenio_app"; "translations"; "invenio_app";
     "messages"; "de"; "translations.json"] in
  let r := distribute_js_translations_from_directory ∅ registry source_files
             (mkFileSystem ∅ ∅) in
  files r.2 !! target_file = Some {[ "Save" := "Speichern" ]} ∧
  path_parent target_file ∈ directories r.2.
Proof.
  intros registry source_files target_file.
  apply (distribute_writes_translations ∅ registry source_files
           (mkFileSystem ∅ ∅) "de"
           {[ "invenio_app" := {[ "Save" := "Speichern" ]} ]}
           "invenio_app" {[ "Save" := "Speichern" ]} target_file).
  - apply (bool_decide_unpack _). reflexivity.
  - apply list_elem_of_here.
  - reflexivity.
  - reflexivity.
  - reflexivity.
Defined.

(** * The writer of the merged translations *)

Lemma length_append s t :
  String.length (s +:+ t) = (String.length s + String.length t)%nat.
Proof. induction s as [|c s IH]; [done|]. rewrite append_cons. simpl. lia. Qed.

Lemma append_inj_suffix s s' x : s +:+ x = s' +:+ x → s = s'.
Proof.
  revert s'. induction s as [|c s IH]; intros [|c' s'] Heq.
  - done.
  - apply (f_equal String.length) in Heq.
    rewrite !length_append in Heq. simpl in Heq. lia.
  - apply (f_equal String.length) in Heq.
    rewrite !length_append in Heq. simpl in Heq. lia.
  - rewrite !append_cons in Heq. injection Heq as -> Heq. f_equal.
    by apply IH.
Qed.

(** X23. The document written for a locale. Every package of the merged
    translations is in the document under its name with its messages,
    except a package named ["_translation_sources"] when sources exist: the
    metadata block is stored under that key exactly when the sources of the
    locale are not empty. The block lists the sources of every package that
    has any, and the description under ["_description"], unless a package of
    that name has sources, which then take its place. *)
Theorem metadata_block_spec (locale : string)
    (translations : PackageTranslations)
    (translation_sources : TranslationSources) :
  let out := _add_metadata_block locale translations translation_sources in
  let sources := default ∅ (translation_sources !! locale) in
  (∀ p, p ≠ "_translation_sources" →
        out !! p = PackageMessages <$> translations !! p) ∧
  (sources = ∅ → out = PackageMessages <$> translations) ∧
  (sources ≠ ∅ →
   ∃ block,
     out !! "_translation_sources" = Some (SourcesBlock block) ∧
     (∀ q, block !! q =
             match sources !! q with
             | Some s => Some (KeySources s)
             | None => if decide (q = "_description")
                       then Some (Description metadata_description)
                       else None
             end)).
Proof.
  intros out sources. unfold out, sources, _add_metadata_block.
  destruct (translation_sources !! locale) as [s|]; simpl.
  - destruct (decide (s = ∅)) as [Hs|Hs].
    + rewrite bool_decide_eq_false_2 by (by intros ?).
      split; [intros p _; apply lookup_fmap|]. split; [done|]. by intros ?.
    + rewrite bool_decide_eq_true_2 by done. split; [|split].
      * intros p Hp. rewrite lookup_insert_ne by done. apply lookup_fmap.
      * by intros ?.
      * intros _. eexists. split; [apply lookup_insert_eq|].
        intros q. rewrite lookup_union, lookup_fmap.
        destruct (s !! q) as [x|]; simpl.
        -- by destruct ({[ "_description" := Description _ ]} !! q).
        -- case_decide as Hq.
           ++ subst q. by rewrite lookup_singleton_eq.
           ++ by rewrite lookup_singleton_ne.
  - split; [intros p _; apply lookup_fmap|]. split; [done|]. by intros ?.
Qed.

(** X24. The files of the writer. After the run, for every locale of the
    merged translations the file [<locale>.json] of the output directory
    holds the document of that locale; the file of a locale that is not in
    the translations is as before; the returned paths are the paths of the
    locales; and the output directory exists. *)
Theorem writer_files_spec
    (translations_by_language : TranslationsByLang)
    (translation_sources : TranslationSources) (output_directory : Path)
    (fs : FileSystem (gmap string OutputValue)) :
  let r := write_js_translation_outputs translations_by_language
             translation_sources output_directory fs in
  (∀ locale,
     files r.2 !! (output_directory // (locale +:+ ".json")) =
       match translations_by_language !! locale with
       | Some translations =>
           Some (_add_metadata_block locale translations translation_sources)
       | None => files fs !! (output_directory // (locale +:+ ".json"))
       end) ∧
  (∀ path,
     path ∈ r.1 ↔
     ∃ locale, is_Some (translations_by_language !! locale) ∧
               path = output_directory // (locale +:+ ".json")) ∧
  (output_directory ≠ [] → output_directory ∈ directories r.2).
Proof.
  intros r. unfold r, write_js_translation_outputs. split; [|split].
  - intros locale.
    rewrite (for_items_view _
               (fun st : list Path * FileSystem (gmap string OutputValue) =>
                  files st.2 !! (output_directory // (locale +:+ ".json")))
               locale
               (fun translations _ =>
                  Some (_add_metadata_block locale translations
                          translation_sources))); [done| |].
    + intros st locale' translations Hne. simpl.
      rewrite lookup_insert_ne; [done|].
      unfold joinpath. intros [_ Heq]%app_inj_length_tail; [|done].
      injection Heq as Heq. by apply append_inj_suffix in Heq.
    + intros st translations. simpl. apply lookup_insert_eq.
  - intros path. unfold for_items.
    set (body := fun (st : list Path * FileSystem (gmap string OutputValue))
                     (kv : string * PackageTranslations) =>
                   ((st.1 ++ [output_directory // (kv.1 +:+ ".json")])%list,
                    write_json (output_directory // (kv.1 +:+ ".json"))
                      (_add_metadata_block kv.1 kv.2 translation_sources)
                      st.2)).
    assert (∀ items st,
              (foldl body st items).1 =
                (st.1 ++ ((fun kv : string * PackageTranslations =>
                             output_directory // (kv.1 +:+ ".json"))
                            <$> items))%list) as Hpaths.
    { induction items as [|kv items IH]; intros st.
      - simpl. by rewrite app_nil_r.
      - simpl. rewrite IH. simpl. by rewrite <- app_assoc. }
    match goal with
    | |- context [ (foldl ?f ?st ?items).1 ] =>
        rewrite (Hpaths items st : (foldl f st items).1 = _)
    end. simpl. rewrite list_elem_of_fmap. split.
    + intros ([locale t] & -> & Hin%elem_of_map_to_list). simpl. eauto.
    + intros (locale & [t Ht] & ->). exists (locale, t). split; [done|].
      by apply elem_of_map_to_list.
  - intros Hne. unfold for_items.
    apply (foldl_invariant _
             (fun st : list Path * FileSystem (gmap string OutputValue) =>
                output_directory ∈ directories st.2)).
    + simpl. apply elem_of_union. right. apply elem_of_list_to_set.
      apply list_elem_of_In, in_map_iff. exists (length output_directory).
      split; [by rewrite firstn_all|]. apply in_seq.
      destruct output_directory; [done|]. simpl. lia.
    + intros st kv _ Hst. done.
Qed.

(** * The writer and the distributor together *)

Section Distributor_contents.
Context {JSON : Type}.
Variable exceptional_package_names : gmap string string.
Variable entry_points : list (string * Path).

Local Abbreviation targets :=
  (calculate_target_packages exceptional_package_names entry_points).
Local Abbreviation distribute :=
  (distribute_js_translations_from_directory (JSON := JSON)
     exceptional_package_names entry_points).

(** X25. Whatever the distributor leaves in a file was there before the
    run, or is the value that an input file stores under a key that does
    not start with an underscore and whose target is that file: values
    under metadata keys are never written anywhere. *)
Theorem distribute_file_contents
    (source_files : list (string * gmap string JSON))
    (fs : FileSystem JSON) (path : Path) :
  match files (distribute source_files fs).2 !! path with
  | Some content =>
      files fs !! path = Some content ∨
      ∃ language (unified : gmap string JSON) package_name,
        (language, unified) ∈ source_files ∧
        unified !! package_name = Some content ∧
        PyStr.startswith "_" package_name = false ∧
        targets language !! package_name = Some path
  | None => True
  end.
Proof.
  unfold distribute_js_translations_from_directory.
  set (I := fun st : list DistributionResult * FileSystem JSON =>
              match files st.2 !! path with
              | Some content =>
                  files fs !! path = Some content ∨
                  ∃ language (unified : gmap string JSON) package_name,
                    (language, unified) ∈ source_files ∧
                    unified !! package_name = Some content ∧
                    PyStr.startswith "_" package_name = false ∧
                    targets language !! package_name = Some path
              | None => True
              end).
  apply (foldl_invariant _ I).
  { unfold I. simpl. destruct (files fs !! path); [by left|done]. }
  intros st [lang uni] Hfile Hst. simpl. unfold for_items.
  apply (foldl_invariant _ I); [done|].
  intros s [q tr] Hq%elem_of_map_to_list Hs. unfold I. simpl.
  rewrite distribute_package_files.
  destruct (PyStr.startswith "_" q) eqn:Hname; [apply Hs|].
  destruct (targets lang !! q) as [target_file|] eqn:Ht; [|apply Hs].
  destruct (decide (target_file = path)) as [->|Hne].
  - rewrite lookup_insert_eq. right. by exists lang, uni, q.
  - rewrite lookup_insert_ne by done. apply Hs.
Qed.

End Distributor_contents.

(** X26. Distributing a written document. The report for a document that
    the writer produced for a locale has one record for each package of the
    merged translations whose name does not start with an underscore, and
    no other record; and no file receives the metadata block: a file that
    holds a block after the run held it before. *)
Theorem metadata_never_distributed
    (exceptional_package_names : gmap string string)
    (entry_points : list (string * Path)) (locale : string)
    (translations : PackageTranslations)
    (translation_sources : TranslationSources)
    (fs : FileSystem OutputValue) :
  let document :=
    _add_metadata_block locale translations translation_sources in
  let r := distribute_js_translations_from_directory
             exceptional_package_names entry_points [(locale, document)] fs in
  (∀ record,
     record ∈ r.1 ↔
     ∃ package_name,
       is_Some (translations !! package_name) ∧
       PyStr.startswith "_" package_name = false ∧
       record = record_of exceptional_package_names entry_points locale
                  package_name) ∧
  (∀ path block,
     files r.2 !! path = Some (SourcesBlock block) →
     files fs !! path = Some (SourcesBlock block)).
Proof.
  intros document r.
  assert (∀ p, PyStr.startswith "_" p = false →
               document !! p = PackageMessages <$> translations !! p)
    as Hdoc.
  { intros p Hp.
    destruct (metadata_block_spec locale translations translation_sources)
      as [Hother _].
    apply Hother. by intros ->. }
  split.
  - intros record. unfold r. rewrite distribute_results_spec. split.
    + intros (language & unified & p & Hin & Hp & Hname & ->).
      apply list_elem_of_singleton in Hin as [= -> ->].
      exists p. rewrite (Hdoc p Hname) in Hp.
      split; [|done]. by apply fmap_is_Some in Hp.
    + intros (p & Hp & Hname & ->). exists locale, document, p.
      split; [apply list_elem_of_here|]. split; [|done].
      rewrite (Hdoc p Hname). by apply fmap_is_Some.
  - intros path block Hblock.
    pose proof (distribute_file_contents exceptional_package_names
                  entry_points [(locale, document)] fs path) as Hc.
    fold r in Hc. rewrite Hblock in Hc.
    destruct Hc as [?|(language & unified & p & Hin & Hp & Hname & _)];
      [done|].
    apply list_elem_of_singleton in Hin as [= -> ->].
    rewrite (Hdoc p Hname) in Hp.
    destruct (translations !! p); discriminate Hp.
Qed.

(** * The summary of the validation reports *)

Lemma summary_step_package st report pkg :
  (summary_step st report).1 !! pkg =
    if decide (report_package report = pkg)
    then Some (PackageBreakdown.add_report report
                 (default PackageBreakdown.empty (st.1 !! pkg)))
    else st.1 !! pkg.
Proof.
  unfold summary_step. simpl. rewrite lookup_alter.
  case_decide as Hpkg.
  - subst pkg. rewrite setdefault_lookup. by rewrite decide_True.
  - rewrite setdefault_lookup. by rewrite decide_False.
Qed.

Lemma summary_step_language st report locale :
  (summary_step st report).2 !! locale =
    if decide (report_locale report = locale)
    then Some (LanguageBreakdown.add_report report
                 (default LanguageBreakdown.empty (st.2 !! locale)))
    else st.2 !! locale.
Proof.
  unfold summary_step. simpl. rewrite lookup_alter.
  case_decide as Hloc.
  - subst locale. rewrite setdefault_lookup. by rewrite decide_True.
  - rewrite setdefault_lookup. by rewrite decide_False.
Qed.

Lemma summary_fold_package all pkg :
  (foldl summary_step (∅, ∅) all).1 !! pkg =
    match filter (fun r => report_package r = pkg) all with
    | [] => None
    | rs => Some (foldl (fun b r => PackageBreakdown.add_report r b)
                    PackageBreakdown.empty rs)
    end.
Proof.
  induction all as [|r all IH] using rev_ind; [done|].
  rewrite foldl_app. cbn [foldl]. rewrite summary_step_package, IH.
  rewrite filter_app, filter_cons, filter_nil.
  destruct (decide (report_package r = pkg)) as [Hpkg|Hpkg].
  - set (rs := filter (fun r0 => report_package r0 = pkg) all).
    destruct rs as [|v l]; [done|].
    simpl. by rewrite foldl_app.
  - by rewrite app_nil_r.
Qed.

Lemma package_breakdown_closed_form rs :
  foldl (fun b r => PackageBreakdown.add_report r b)
        PackageBreakdown.empty rs =
    PackageBreakdown.mk
      (length rs)
      (sum_list ((fun r => Counts.total (report_counts r)) <$> rs))
      (sum_list ((fun r => Counts.untranslated (report_counts r)) <$> rs))
      (sum_list ((fun r => Counts.fuzzyTranslations (report_counts r))
                   <$> rs))
      ((fun r => ProblematicLanguage.mk (report_locale r) (report_counts r))
         <$> filter (fun r => (0 < Counts.total (report_counts r))%nat) rs).
Proof.
  induction rs as [|r rs IH] using rev_ind; [done|].
  rewrite foldl_app. cbn [foldl]. rewrite IH.
  unfold PackageBreakdown.add_report. cbn [PackageBreakdown.locales
    PackageBreakdown.total_issues PackageBreakdown.untranslated_strings
    PackageBreakdown.fuzzy_translations
    PackageBreakdown.problematic_languages].
  rewrite !fmap_app, !sum_list_with_app, length_app, filter_app, filter_cons,
    filter_nil, fmap_app. simpl.
  destruct (Nat.ltb_spec 0 (Counts.total (report_counts r)));
    [rewrite decide_True by done|rewrite decide_False by lia];
    simpl; rewrite ?app_nil_r; f_equal; lia.
Qed.

(** X27. The breakdown of a package in the summary is computed from the
    reports of that package alone, in their order: it exists exactly when
    the package has a report; it counts the reports, sums their totals,
    their untranslated and their fuzzy counts; and its problematic
    languages are the locales of the reports with at least one issue, each
    with the counts of its report. *)
Theorem summary_package_breakdown
    (package_validations : list PackageValidation) (packages : list string)
    (pkg : string) :
  let summary := calculate_validation_summary package_validations packages in
  let rs := filter (fun r => report_package r = pkg)
              (ValidationSummary.reports summary) in
  ValidationSummary.reports summary =
    concat (pv_reports <$> package_validations) ∧
  ValidationSummary.package_breakdown summary !! pkg =
    match rs with
    | [] => None
    | _ =>
        Some (PackageBreakdown.mk
                (length rs)
                (sum_list ((fun r => Counts.total (report_counts r)) <$> rs))
                (sum_list ((fun r => Counts.untranslated (report_counts r))
                             <$> rs))
                (sum_list ((fun r => Counts.fuzzyTranslations
                                       (report_counts r)) <$> rs))
                ((fun r => ProblematicLanguage.mk (report_locale r)
                             (report_counts r))
                   <$> filter (fun r => (0 < Counts.total (report_counts r))%nat)
                         rs))
    end.
Proof.
  intros summary rs. split; [done|]. unfold rs, summary.
  cbn [calculate_validation_summary ValidationSummary.package_breakdown
       ValidationSummary.reports].
  rewrite summary_fold_package.
  destruct (filter (fun r => report_package r = pkg)
              (concat (pv_reports <$> package_validations))) as [|r0 rs0];
    [done|].
  by rewrite package_breakdown_closed_form.
Qed.

Lemma summary_fold_language all locale :
  (foldl summary_step (∅, ∅) all).2 !! locale =
    match filter (fun r => report_locale r = locale) all with
    | [] => None
    | rs => Some (foldl (fun b r => LanguageBreakdown.add_report r b)
                    LanguageBreakdown.empty rs)
    end.
Proof.
  induction all as [|r all IH] using rev_ind; [done|].
  rewrite foldl_app. cbn [foldl]. rewrite summary_step_language, IH.
  rewrite filter_app, filter_cons, filter_nil.
  destruct (decide (report_locale r = locale)) as [Hloc|Hloc].
  - set (rs := filter (fun r0 => report_locale r0 = locale) all).
    destruct rs as [|v l]; [done|].
    simpl. by rewrite foldl_app.
  - by rewrite app_nil_r.
Qed.

Lemma language_breakdown_closed_form rs :
  foldl (fun b r => LanguageBreakdown.add_report r b)
        LanguageBreakdown.empty rs =
    LanguageBreakdown.mk
      (length rs)
      (sum_list ((fun r => Counts.total (report_counts r)) <$> rs))
      (sum_list ((fun r => Counts.untranslated (report_counts r)) <$> rs))
      (sum_list ((fun r => Counts.fuzzyTranslations (report_counts r))
                   <$> rs))
      (bool_decide (Forall (fun r => Counts.total (report_counts r) = 0%nat)
                      rs)).
Proof.
  induction rs as [|r rs IH] using rev_ind; [done|].
  rewrite foldl_app. cbn [foldl]. rewrite IH.
  unfold LanguageBreakdown.add_report. cbn [LanguageBreakdown.packages
    LanguageBreakdown.total_issues LanguageBreakdown.untranslated_strings
    LanguageBreakdown.fuzzy_translations LanguageBreakdown.is_complete].
  rewrite !fmap_app, !sum_list_with_app, length_app. simpl.
  f_equal; try lia.
  destruct (Nat.ltb_spec 0 (Counts.total (report_counts r))) as [Hr|Hr].
  - symmetry. apply bool_decide_eq_false_2.
    intros [_ Hlast]%Forall_app. rewrite Forall_singleton in Hlast. lia.
  - apply bool_decide_ext. rewrite Forall_app, Forall_singleton.
    split; [|by intros [? _]]. intros ?. split; [done|simpl; lia].
Qed.

(** X28. The breakdown of a language in the summary is computed from the
    reports of that locale alone: it exists exactly when the locale has a
    report, counts the reports, and sums their totals, their untranslated
    and their fuzzy counts. The language is complete exactly when every
    report of the locale has no issue at all; obsolete entries count as
    issues here, so a language can be incomplete while its untranslated and
    fuzzy counts are both zero. *)
Theorem summary_language_breakdown
    (package_validations : list PackageValidation) (packages : list string)
    (locale : string) :
  let summary := calculate_validation_summary package_validations packages in
  let rs := filter (fun r => report_locale r = locale)
              (concat (pv_reports <$> package_validations)) in
  ValidationSummary.language_breakdown summary !! locale =
    match rs with
    | [] => None
    | _ =>
        Some (LanguageBreakdown.mk
                (length rs)
                (sum_list ((fun r => Counts.total (report_counts r)) <$> rs))
                (sum_list ((fun r => Counts.untranslated (report_counts r))
                             <$> rs))
                (sum_list ((fun r => Counts.fuzzyTranslations
                                       (report_counts r)) <$> rs))
                (bool_decide
                   (Forall (fun r =>
                              Counts.untranslated (report_counts r) = 0%nat ∧
                              Counts.fuzzyTranslations (report_counts r)
                                = 0%nat ∧
                              Counts.obsoleteTranslations (report_counts r)
                                = 0%nat) rs)))
    end.
Proof.
  intros summary rs. unfold rs, summary.
  cbn [calculate_validation_summary ValidationSummary.language_breakdown].
  rewrite summary_fold_language.
  destruct (filter (fun r => report_locale r = locale)
              (concat (pv_reports <$> package_validations))) as [|r0 rs0];
    [done|].
  rewrite language_breakdown_closed_form. do 2 f_equal.
  apply bool_decide_ext. apply Forall_iff. intros r.
  unfold Counts.total. lia.
Qed.


(** * The translations of the Python packages *)

Lemma module_name_idemp package_name :
  package_name_to_module_name (package_name_to_module_name package_name) =
    package_name_to_module_name package_name.
Proof.
  unfold package_name_to_module_name. apply replace_char_id. right.
  intros i. rewrite replace_char_get.
  destruct (String.get i package_name) as [c|]; [|done]. simpl.
  destruct (Ascii.eqb_spec c "-"); [done|]. by intros [= ->].
Qed.

Lemma po_to_i18next_json_module_name po package_name :
  po_to_i18next_json po (package_name_to_module_name package_name) =
    po_to_i18next_json po package_name.
Proof. unfold po_to_i18next_json. by rewrite module_name_idemp. Qed.

Lemma foldl_messages_assign (d : gmap string string)
    (items : list (string * string)) :
  foldl (fun d msg => <[Message.msgid msg := Message.text msg]> d) d
        ((fun kv : string * string => Message.mk kv.1 kv.2) <$> items) =
    assign_all d items.
Proof.
  revert d. induction items as [|[k v] items IH]; intros d; [done|].
  simpl. apply IH.
Qed.

Lemma find_append_messages loc new bundles locale :
  List.find (fun b => bool_decide (TranslationBundle.locale b = locale))
    (PackageTranslation.append_messages loc new bundles) =
    if decide (loc = locale)
    then (fun b => TranslationBundle.mk (TranslationBundle.locale b)
                     (TranslationBundle.messages b ++ new))
           <$> List.find
                 (fun b => bool_decide (TranslationBundle.locale b = loc))
                 bundles
    else List.find
           (fun b => bool_decide (TranslationBundle.locale b = locale))
           bundles.
Proof.
  induction bundles as [|b rest IH]; [by case_decide|].
  simpl. destruct (decide (TranslationBundle.locale b = loc)) as [Hb|Hb].
  - rewrite (bool_decide_eq_true_2 _ Hb). simpl.
    destruct (decide (loc = locale)) as [Hl|Hl].
    + rewrite bool_decide_eq_true_2 by congruence. done.
    + rewrite !bool_decide_eq_false_2 by congruence. done.
  - rewrite (bool_decide_eq_false_2 _ Hb). simpl.
    destruct (decide (TranslationBundle.locale b = locale)) as [Hbl|Hbl].
    + rewrite (bool_decide_eq_true_2 _ Hbl).
      rewrite decide_False by congruence. done.
    + rewrite (bool_decide_eq_false_2 _ Hbl). apply IH.
Qed.

Lemma find_snoc_bundle bundles loc locale :
  List.find (fun b => bool_decide (TranslationBundle.locale b = locale))
    (bundles ++ [TranslationBundle.mk loc []]) =
    match List.find
            (fun b => bool_decide (TranslationBundle.locale b = locale))
            bundles with
    | Some b => Some b
    | None => if decide (loc = locale)
              then Some (TranslationBundle.mk loc []) else None
    end.
Proof.
  induction bundles as [|b rest IH]; simpl.
  - destruct (decide (loc = locale)) as [Hl|Hl].
    + by rewrite (bool_decide_eq_true_2 _ Hl).
    + by rewrite (bool_decide_eq_false_2 _ Hl).
  - by destruct (bool_decide (TranslationBundle.locale b = locale)).
Qed.

(** Adding a file lays its conversion over what the bundle of its locale
    holds, and leaves the bundles of the other locales as they are. *)
Lemma add_view pt loc po locale :
  bundle_view (PackageTranslation.add pt loc po) locale =
    if decide (loc = locale)
    then Some (po_to_i18next_json po (PackageTranslation.package_name pt)
                 ∪ default ∅ (bundle_view pt locale))
    else bundle_view pt locale.
Proof.
  unfold bundle_view, PackageTranslation.add,
    PackageTranslation.get_translation_bundle.
  cbn [PackageTranslation.translation_bundles
       PackageTranslation.package_name].
  rewrite find_append_messages.
  assert (∀ b : TranslationBundle.t,
            messages_dict
              (TranslationBundle.mk (TranslationBundle.locale b)
                 (TranslationBundle.messages b
                    ++ ((fun kv : string * string => Message.mk kv.1 kv.2)
                          <$> map_to_list
                                (po_to_i18next_json po
                                   (PackageTranslation.package_name pt))))) =
            po_to_i18next_json po (PackageTranslation.package_name pt)
              ∪ messages_dict b) as Hdict.
  { intros b. unfold messages_dict. cbn [TranslationBundle.messages].
    rewrite foldl_app, foldl_messages_assign, assign_all_nodup
      by apply NoDup_fst_map_to_list.
    by rewrite list_to_map_to_list. }
  destruct (decide (loc = locale)) as [<-|Hne].
  - destruct (List.find
                (fun b => bool_decide (TranslationBundle.locale b = loc))
                (PackageTranslation.translation_bundles pt)) as [b|] eqn:Hf.
    + rewrite Hf. cbn [fmap option_fmap option_map default].
      by rewrite Hdict.
    + rewrite find_snoc_bundle, Hf, decide_True by done.
      cbn [fmap option_fmap option_map default].
      by rewrite (Hdict (TranslationBundle.mk loc [])).
  - destruct (List.find
                (fun b => bool_decide (TranslationBundle.locale b = loc))
                (PackageTranslation.translation_bundles pt)) as [b|] eqn:Hf;
      [done|].
    rewrite find_snoc_bundle.
    destruct (List.find
                (fun b => bool_decide (TranslationBundle.locale b = locale))
                (PackageTranslation.translation_bundles pt)); [done|].
    by rewrite decide_False.
Qed.

Lemma add_package_name pt loc po :
  PackageTranslation.package_name (PackageTranslation.add pt loc po) =
    PackageTranslation.package_name pt.
Proof. done. Qed.

(** The loop of [get_package_translations] from any state. *)
Lemma package_translations_loop inst package_name locales locale jobs pt :
  PackageTranslation.package_name pt =
    package_name_to_module_name package_name →
  let step := fun acc (lp : string * Path) =>
    match acc with
    | None => None
    | Some package_translation =>
        if locale_filtered_out locales lp.1
        then Some package_translation
        else
          match pofile inst lp.2 with
          | None => None
          | Some po_file =>
              Some (PackageTranslation.add package_translation lp.1 po_file)
          end
    end in
  let accepted :=
    filter (fun lp : string * Path => locale_filtered_out locales lp.1 = false)
      jobs in
  (is_Some (foldl step (Some pt) jobs) ↔
     ∀ lp, lp ∈ accepted → is_Some (pofile inst lp.2)) ∧
  ∀ pt', foldl step (Some pt) jobs = Some pt' →
    PackageTranslation.package_name pt' =
      package_name_to_module_name package_name ∧
    (is_Some (bundle_view pt' locale) ↔
       is_Some (bundle_view pt locale) ∨ locale ∈ accepted.*1) ∧
    default ∅ (bundle_view pt' locale) =
      foldl (fun acc (lp : string * Path) =>
               match pofile inst lp.2 with
               | Some po_file => po_to_i18next_json po_file package_name ∪ acc
               | None => acc
               end)
            (default ∅ (bundle_view pt locale))
            (filter (fun lp : string * Path => lp.1 = locale) accepted).
Proof.
  intros Hname step accepted. unfold accepted. clear accepted.
  assert (∀ l, foldl step None l = None) as Hnone
    by (intros l; induction l; [done|]; simpl; auto).
  revert pt Hname. induction jobs as [|[loc path] jobs IH]; intros pt Hname.
  - simpl. split.
    + split; [by intros _ lp ?%elem_of_nil|eauto].
    + intros pt' [= <-]. split; [done|]. split; [|done].
      split; [auto|]. by intros [?|?%elem_of_nil].
  - rewrite filter_cons.
    change (foldl step (Some pt) ((loc, path) :: jobs))
      with (foldl step (step (Some pt) (loc, path)) jobs).
    assert (step (Some pt) (loc, path) =
              if locale_filtered_out locales loc then Some pt
              else match pofile inst path with
                   | None => None
                   | Some po_file =>
                       Some (PackageTranslation.add pt loc po_file)
                   end) as -> by done.
    cbn [fst snd].
    destruct (locale_filtered_out locales loc) eqn:Hskip.
    { rewrite decide_False by (cbn [fst]; congruence). apply IH, Hname. }
    rewrite decide_True by done.
    destruct (pofile inst path) as [po|] eqn:Hpo.
    + specialize (IH (PackageTranslation.add pt loc po) Hname)
        as [IHsome IHres].
      split.
      * rewrite IHsome. split.
        -- intros H lp [->|Hlp]%elem_of_cons; [|by apply H].
           cbn [snd]. rewrite Hpo. eauto.
        -- intros H lp Hlp. apply H. by right.
      * intros pt' Hpt'. specialize (IHres pt' Hpt')
          as (Hn & Hsome & Hdict).
        split; [done|]. rewrite add_view in Hsome, Hdict.
        rewrite filter_cons, fmap_cons. cbn [fst snd].
        destruct (decide (loc = locale)) as [->|Hne].
        -- split.
           ++ split; [intros _; right; left|].
              intros _. apply Hsome. left. eauto.
           ++ cbn [foldl snd]. rewrite Hpo. cbn [default] in Hdict.
              rewrite Hdict, Hname.
              by rewrite po_to_i18next_json_module_name.
        -- split; [|done]. rewrite Hsome. rewrite elem_of_cons.
           split; [tauto|]. intros [?|[?|?]]; [by left|congruence|by right].
    + rewrite Hnone. split.
      * split; [by intros [? ?]|]. intros H.
        specialize (H (loc, path) ltac:(left)). cbn [snd] in H.
        rewrite Hpo in H. by destruct H.
      * by intros pt' ?.
Qed.

(** X30. The translations of a Python package for which the lookup of the
    module returns a location. The function returns exactly when every
    translation root that exists is a directory and every file found for
    the package that the locale filter lets through can be read; otherwise
    it ends with the error (where the collector of the JavaScript
    translations skips a file that cannot be read). When it returns, the
    result is named by the module name; it has a bundle for a locale
    exactly when one of those files is of the locale; and the dictionary
    built from it for a locale holds, under the module name, the
    conversions of the files of the locale laid over each other in the
    order of the files, later files winning, or nothing at all when that
    is empty. *)
Theorem package_translations_bundle (inst : Installation)
    (package_name : string) (locales : option (list string))
    (package_root : Path) :
  find_package_path inst package_name = Some package_root →
  let module_name := package_name_to_module_name package_name in
  let jobs := accepted_po_files inst package_root package_name locales in
  (is_Some (get_package_translations inst package_name locales) ↔
     (∀ base, base ∈ _get_translation_roots package_root package_name →
        path_exists inst base = true → is_dir inst base = true) ∧
     (∀ lp, lp ∈ jobs → is_Some (pofile inst lp.2))) ∧
  ∀ pt, get_package_translations inst package_name locales = Some pt →
    PackageTranslation.package_name pt = module_name ∧
    ∀ locale,
      (is_Some (PackageTranslation.get_translation_bundle pt locale) ↔
         locale ∈ jobs.*1) ∧
      build_global_translation_bundle locale [pt] =
        let translations :=
          layered_conversions inst package_name locale jobs in
        if decide (translations = ∅) then ∅
        else {[ module_name := translations ]}.
Proof.
  intros Hroot module_name jobs.
  unfold get_package_translations. rewrite Hroot.
  destruct (iterdir_raises inst
              (_get_translation_roots package_root package_name))
    eqn:Hraises.
  { split; [|by intros pt ?].
    split; [by intros [? ?]|]. intros [Hdirs _]. exfalso.
    apply existsb_exists in Hraises as (base & Hbase & Hb).
    apply andb_prop in Hb as [He Hd]. apply list_elem_of_In in Hbase.
    rewrite (Hdirs base Hbase He) in Hd. discriminate Hd. }
  assert (∀ base, base ∈ _get_translation_roots package_root package_name →
            path_exists inst base = true → is_dir inst base = true)
    as Hdirs.
  { intros base Hbase He. destruct (is_dir inst base) eqn:Hd; [done|].
    assert (iterdir_raises inst
              (_get_translation_roots package_root package_name) = true)
      as Hr; [|rewrite Hr in Hraises; discriminate Hraises].
    apply existsb_exists. exists base.
    split; [by apply list_elem_of_In|]. by rewrite He, Hd. }
  split.
  - destruct (package_translations_loop inst package_name locales ""
                (find_po_files inst package_root package_name)
                (PackageTranslation.mk module_name []) eq_refl)
      as [Hsome _].
    split.
    + intros H. split; [done|]. by apply Hsome.
    + intros [_ H]. by apply Hsome.
  - intros pt Hpt. split.
    + by apply (package_translations_loop inst package_name locales ""
                  (find_po_files inst package_root package_name)
                  (PackageTranslation.mk module_name [])).
    + intros locale.
      destruct (package_translations_loop inst package_name locales locale
                  (find_po_files inst package_root package_name)
                  (PackageTranslation.mk module_name []) eq_refl)
        as [_ Hres].
      specialize (Hres pt Hpt) as (Hn & Hsome & Hdict).
      change (bundle_view (PackageTranslation.mk module_name []) locale)
        with (@None (gmap string string)) in Hsome, Hdict.
      cbn [default] in Hdict.
      unfold bundle_view in Hsome, Hdict. rewrite fmap_is_Some in Hsome.
      split.
      * rewrite Hsome. split; [by intros [[? ?]|?]|by right].
      * unfold build_global_translation_bundle. cbn [foldl].
        cbv zeta. unfold layered_conversions, jobs, accepted_po_files.
        rewrite <- Hdict, Hn.
        destruct (PackageTranslation.get_translation_bundle pt locale)
          as [bundle|]; simpl; [|done].
        case_decide; [done|]. by rewrite insert_empty.
Qed.

Lemma package_translations_bundle_witness :
  ∃ pt,
    get_package_translations BothKinds.installation "invenio-app" None
      = Some pt ∧
    build_global_translation_bundle "de" [pt] !! "invenio_app"
      = Some {[ "invenio_app:Save" := "Speichern";
                "invenio_app:Upload" := "Upload" ]}.
Proof.
  destruct (package_translations_bundle BothKinds.installation "invenio-app"
              None BothKinds.root eq_refl) as [Hsome Hres].
  destruct (get_package_translations BothKinds.installation "invenio-app"
              None) as [pt|] eqn:Hpt.
  - exists pt. split; [done|].
    destruct (Hres pt eq_refl) as [_ Hloc].
    destruct (Hloc "de") as [_ ->]. vm_compute. done.
  - exfalso. vm_compute in Hpt. discriminate Hpt.
Defined.
